(** * Enigma machine simulator: a shallow embedding of [main.cpp]

    The C++ program is embedded function by function.  Conventions:

    - a C++ [char] is an [ascii]; [code] gives its value as a (signed,
      8-bit) C++ [int] and [chr] is [static_cast<char>];
    - a C++ [int] is a [Z].  Every [int] the program computes is bounded by
      a small multiple of 26 once positions and ring settings have gone
      through [setPosition] / [setRingSetting], so no 32-bit wrap-around
      can occur and none is written out; [%] is C++'s truncating
      remainder, [Z.rem];
    - [std::string] is a [list ascii], [std::vector<Rotor>] a [list Rotor],
      [std::map<char,char>] a [gmap ascii ascii];
    - a member function that mutates its object takes the object and
      returns the new one;
    - [std::invalid_argument] is the outcome [Throw]; an index outside a
      string or vector, which C++ leaves undefined, is the outcome
      [Undefined]. *)

From Stdlib Require Import ZArith Ascii String List Permutation Sorted Lia.
From stdpp Require Import base tactics option list gmap strings.

Local Open Scope Z_scope.

(** ** Outcomes of a call *)

Inductive outcome (A : Type) : Type :=
| Ok (a : A)
| Throw (what : string)
| Undefined.

Arguments Ok {A} a.
Arguments Throw {A} what.
Arguments Undefined {A}.

Global Instance outcome_ret : MRet outcome := fun A a => Ok a.

Global Instance outcome_bind : MBind outcome := fun A B f x =>
  match x with
  | Ok a => f a
  | Throw what => Throw what
  | Undefined => Undefined
  end.

(** ** Characters and strings *)

(** The value of a [char] as an [int] ([char] is signed, 8 bits wide). *)
Definition code (c : ascii) : Z :=
  let n := Z.of_N (N_of_ascii c) in
  if n <? 128 then n else n - 256.

(** [static_cast<char>(n)]. *)
Definition chr (n : Z) : ascii := ascii_of_N (Z.to_N (n mod 256)).

(** [std::toupper] and [std::isalpha] in the "C" locale, on [int]. *)
Definition toupper (n : Z) : Z :=
  if (97 <=? n) && (n <=? 122) then n - 32 else n.

Definition isalpha (n : Z) : bool :=
  ((65 <=? n) && (n <=? 90)) || ((97 <=? n) && (n <=? 122)).

(** [s[i]] on a [std::string]: defined for [0 <= i <= size()], the
    character at [size()] being the terminator. *)
Definition str_get (s : list ascii) (i : Z) : outcome ascii :=
  if i <? 0 then Undefined
  else if i =? Z.of_nat (length s) then Ok zero
  else match s !! Z.to_nat i with
       | Some c => Ok c
       | None => Undefined
       end.

(** [s[i] = c] on a [std::string]: defined for [0 <= i < size()]. *)
Definition str_set (s : list ascii) (i : Z) (c : ascii) : outcome (list ascii) :=
  if (0 <=? i) && (i <? Z.of_nat (length s))
  then Ok (<[Z.to_nat i := c]> s)
  else Undefined.

(** ** Constants and alphabet utilities *)

Definition ALPHABET_SIZE : Z := 26.
Definition FIRST_LETTER : ascii := "A"%char.

Definition charToIndex (c : ascii) : Z :=
  toupper (code c) - code FIRST_LETTER.

Definition indexToChar (index : Z) : ascii :=
  chr (code FIRST_LETTER + Z.rem index ALPHABET_SIZE).

(** ** EnigmaComponent *)

Record EnigmaComponent : Type := mkComponent {
  wiring : list ascii;
  name : string;
  position : Z;
  ringSetting : Z
}.

Definition newEnigmaComponent (w : list ascii) (nm : string)
  : outcome EnigmaComponent :=
  if negb (Z.of_nat (length w) =? ALPHABET_SIZE)
  then Throw "Wiring must be exactly 26 characters"
  else Ok (mkComponent w nm 0 0).

Definition setPosition (pos : Z) (c : EnigmaComponent) : EnigmaComponent :=
  mkComponent (wiring c) (name c) (Z.rem pos ALPHABET_SIZE) (ringSetting c).

Definition setRingSetting (setting : Z) (c : EnigmaComponent) : EnigmaComponent :=
  mkComponent (wiring c) (name c) (position c) (Z.rem setting ALPHABET_SIZE).

Definition getPosition (c : EnigmaComponent) : Z := position c.

Definition rotate (c : EnigmaComponent) : EnigmaComponent :=
  mkComponent (wiring c) (name c)
    (Z.rem (position c + 1) ALPHABET_SIZE) (ringSetting c).

Definition applyOffset (c : EnigmaComponent) (signal : Z) (forward : bool) : Z :=
  let offset := position c - ringSetting c in
  let offset := if offset <? 0 then offset + ALPHABET_SIZE else offset in
  if forward
  then Z.rem (signal + offset) ALPHABET_SIZE
  else Z.rem (signal - offset + ALPHABET_SIZE) ALPHABET_SIZE.

(** ** Rotor *)

Record Rotor : Type := mkRotor {
  component : EnigmaComponent;
  reverseWiring : list ascii;
  notchPosition : Z
}.

(** The body of the [for] loop of [buildReverseWiring], run [n] times
    from index [i]. *)
Fixpoint buildReverseWiring_loop (w : list ascii) (n : nat) (i : Z)
    (rw : list ascii) : outcome (list ascii) :=
  match n with
  | O => Ok rw
  | S n' =>
      output ← str_get w i;
      let outputIndex := charToIndex output in
      rw' ← str_set rw outputIndex (indexToChar i);
      buildReverseWiring_loop w n' (i + 1) rw'
  end.

Definition buildReverseWiring (w : list ascii) : outcome (list ascii) :=
  buildReverseWiring_loop w (Z.to_nat ALPHABET_SIZE) 0
    (replicate (Z.to_nat ALPHABET_SIZE) zero).

Definition newRotor (w : list ascii) (notch : Z) (nm : string) : outcome Rotor :=
  c ← newEnigmaComponent w nm;
  rw ← buildReverseWiring w;
  Ok (mkRotor c rw notch).

Definition Rotor_process (r : Rotor) (input : ascii) (forward : bool)
  : outcome ascii :=
  let signal := charToIndex input in
  let signal := applyOffset (component r) signal forward in
  outputChar ← (if forward
                 then str_get (wiring (component r)) signal
                 else str_get (reverseWiring r) signal);
  let signal := charToIndex outputChar in
  let signal := applyOffset (component r) signal (negb forward) in
  Ok (indexToChar signal).

Definition isAtNotch (r : Rotor) : bool :=
  position (component r) =? notchPosition r.

Definition setNotch (notch : Z) (r : Rotor) : Rotor :=
  mkRotor (component r) (reverseWiring r) (Z.rem notch ALPHABET_SIZE).

(** [rotate], [setPosition] and [setRingSetting] called on a [Rotor]. *)
Definition on_component (f : EnigmaComponent -> EnigmaComponent) (r : Rotor)
  : Rotor :=
  mkRotor (f (component r)) (reverseWiring r) (notchPosition r).

(** ** Reflector *)

Record Reflector : Type := mkReflector {
  refl_component : EnigmaComponent
}.

Definition newReflector (w : list ascii) (nm : string) : outcome Reflector :=
  c ← newEnigmaComponent w nm;
  Ok (mkReflector c).

Definition Reflector_process (r : Reflector) (input : ascii) (forward : bool)
  : outcome ascii :=
  let signal := charToIndex input in
  str_get (wiring (refl_component r)) signal.

(** ** Plugboard *)

Record Plugboard : Type := mkPlugboard {
  connections : gmap ascii ascii
}.

Definition newPlugboard : Plugboard := mkPlugboard ∅.

(** [connect] returns the plugboard as the call leaves it, together with
    the outcome of the call. *)
Definition connect (pb : Plugboard) (a b : ascii) : Plugboard * outcome unit :=
  let a := chr (toupper (code a)) in
  let b := chr (toupper (code b)) in
  if bool_decide (is_Some (connections pb !! a))
     || bool_decide (is_Some (connections pb !! b))
  then (pb, Throw "One or both letters are already connected")
  else (mkPlugboard (<[b := a]> (<[a := b]> (connections pb))), Ok tt).

Definition clearConnections (pb : Plugboard) : Plugboard := mkPlugboard ∅.

(** [process] is not a [const] member: it returns the plugboard as well. *)
Definition Plugboard_process (pb : Plugboard) (input : ascii)
  : Plugboard * ascii :=
  let input := chr (toupper (code input)) in
  match connections pb !! input with
  | Some paired => (pb, paired)
  | None => (pb, input)
  end.

(** The characters in the order of [<] on [char], and the entries of a
    [std::map<char, char>] in the order a range-[for] visits them: by
    ascending key. *)
Definition chars_ascending : list ascii := chr <$> seqZ (-128) 256.

Definition map_entries (m : gmap ascii ascii) : list (ascii * ascii) :=
  omap (fun k => (fun v => (k, v)) <$> m !! k) chars_ascending.

(** [v[i]] and [v[i] = x] on a [std::vector]: defined for
    [0 <= i < size()]. *)
Definition vec_get {A} (v : list A) (i : Z) : outcome A :=
  if i <? 0 then Undefined
  else match v !! Z.to_nat i with
       | Some x => Ok x
       | None => Undefined
       end.

Definition vec_set {A} (v : list A) (i : Z) (x : A) : outcome (list A) :=
  if (0 <=? i) && (i <? Z.of_nat (length v))
  then Ok (<[Z.to_nat i := x]> v)
  else Undefined.

(** The [for] loop of [getConnections] over the entries still to visit. *)
Fixpoint getConnections_loop (entries : list (ascii * ascii))
    (result : list ascii) (added : list bool) : outcome (list ascii) :=
  match entries with
  | [] => Ok result
  | (a, b) :: entries' =>
      seen ← vec_get added (charToIndex a);
      if negb seen
      then let result := result ++ [a] in
           let result := result ++ [b] in
           let result := result ++ [" "%char] in
           added ← vec_set added (charToIndex a) true;
           added ← vec_set added (charToIndex b) true;
           getConnections_loop entries' result added
      else getConnections_loop entries' result added
  end.

Definition getConnections (pb : Plugboard) : outcome (list ascii) :=
  getConnections_loop (map_entries (connections pb)) []
    (replicate (Z.to_nat ALPHABET_SIZE) false).

(** ** EnigmaMachine *)

Record EnigmaMachine : Type := mkMachine {
  rotors : list Rotor;
  reflector : Reflector;
  plugboard : Plugboard
}.

(** [rotors[i]] read, and [rotors[i].f()] for a mutating member [f]. *)
Definition rotor_at (i : nat) (rs : list Rotor) : outcome Rotor :=
  match rs !! i with
  | Some r => Ok r
  | None => Undefined
  end.

Definition at_rotor (i : nat) (f : Rotor -> Rotor) (rs : list Rotor)
  : outcome (list Rotor) :=
  match rs !! i with
  | Some r => Ok (<[i := f r]> rs)
  | None => Undefined
  end.

Definition rotateRotors (m : EnigmaMachine) : outcome EnigmaMachine :=
  rs ← at_rotor 2 (on_component rotate) (rotors m);
  r2 ← rotor_at 2 rs;
  let rotateMiddle := isAtNotch r2 in
  r1 ← rotor_at 1 rs;
  let rotateLeft := isAtNotch r1 in
  rs ← (if rotateMiddle
        then rs ← at_rotor 1 (on_component rotate) rs;
             at_rotor 0 (on_component rotate) rs
        else Ok rs);
  rs ← (if rotateLeft
        then at_rotor 0 (on_component rotate) rs
        else Ok rs);
  Ok (mkMachine rs (reflector m) (plugboard m)).

Definition newEnigmaMachine (rs : list Rotor) (rf : Reflector)
  : outcome EnigmaMachine :=
  if negb (length rs =? 3)%nat
  then Throw "Enigma machine requires exactly 3 rotors"
  else Ok (mkMachine rs rf newPlugboard).

(** One of the two rotor loops of [encryptChar]: the rotors of [rs] are
    applied in list order. *)
Fixpoint rotor_pass (rs : list Rotor) (forward : bool) (result : ascii)
  : outcome ascii :=
  match rs with
  | [] => Ok result
  | r :: rs' =>
      result ← Rotor_process r result forward;
      rotor_pass rs' forward result
  end.

Definition encryptChar (m : EnigmaMachine) (input : ascii)
  : outcome (EnigmaMachine * ascii) :=
  m ← rotateRotors m;
  let '(pb, result) := Plugboard_process (plugboard m) input in
  result ← rotor_pass (reverse (rotors m)) true result;
  result ← Reflector_process (reflector m) result true;
  result ← rotor_pass (rotors m) false result;
  let '(pb, result) := Plugboard_process pb result in
  Ok (mkMachine (rotors m) (reflector m) pb, result).

(** The [for] loop of [encrypt], with the output built so far. *)
Fixpoint encrypt_loop (m : EnigmaMachine) (message result : list ascii)
  : outcome (EnigmaMachine * list ascii) :=
  match message with
  | [] => Ok (m, result)
  | c :: message' =>
      if isalpha (code c)
      then '(m, e) ← encryptChar m c;
           encrypt_loop m message' (result ++ [e])
      else encrypt_loop m message' (result ++ [c])
  end.

Definition encrypt (m : EnigmaMachine) (message : list ascii)
  : outcome (EnigmaMachine * list ascii) :=
  encrypt_loop m message [].

Definition setRotorPositions (left middle right : Z) (m : EnigmaMachine)
  : outcome EnigmaMachine :=
  rs ← at_rotor 0 (on_component (setPosition left)) (rotors m);
  rs ← at_rotor 1 (on_component (setPosition middle)) rs;
  rs ← at_rotor 2 (on_component (setPosition right)) rs;
  Ok (mkMachine rs (reflector m) (plugboard m)).

Definition setRingSettings (left middle right : Z) (m : EnigmaMachine)
  : outcome EnigmaMachine :=
  rs ← at_rotor 0 (on_component (setRingSetting left)) (rotors m);
  rs ← at_rotor 1 (on_component (setRingSetting middle)) rs;
  rs ← at_rotor 2 (on_component (setRingSetting right)) rs;
  Ok (mkMachine rs (reflector m) (plugboard m)).

(** The loop of [setPlugboardConnections]: it stops at the first
    [connect] that throws. *)
Fixpoint connect_all (pb : Plugboard) (cs : list (ascii * ascii))
  : Plugboard * outcome unit :=
  match cs with
  | [] => (pb, Ok tt)
  | (a, b) :: cs' =>
      match connect pb a b with
      | (pb', Ok _) => connect_all pb' cs'
      | (pb', stop) => (pb', stop)
      end
  end.

Definition setPlugboardConnections (cs : list (ascii * ascii))
    (m : EnigmaMachine) : EnigmaMachine * outcome unit :=
  let '(pb, res) := connect_all (clearConnections (plugboard m)) cs in
  (mkMachine (rotors m) (reflector m) pb, res).

Definition getPositions (m : EnigmaMachine) : list Z :=
  map (fun r => getPosition (component r)) (rotors m).

Definition getCurrentState (m : EnigmaMachine) : outcome (list ascii) :=
  let state := [] ++ list_ascii_of_string "Rotor Positions: " in
  r ← rotor_at 0 (rotors m);
  let state := state ++ [indexToChar (getPosition (component r))] in
  r ← rotor_at 1 (rotors m);
  let state := state ++ [indexToChar (getPosition (component r))] in
  r ← rotor_at 2 (rotors m);
  let state := state ++ [indexToChar (getPosition (component r))] in
  connections ← getConnections (plugboard m);
  Ok (state ++ ("010"%char :: list_ascii_of_string "Plugboard: ")
            ++ connections).

Definition getPlugboard (m : EnigmaMachine) : Plugboard := plugboard m.

(** ** EnigmaFactory *)

Definition str (s : string) : list ascii := list_ascii_of_string s.

Definition createRotor (w : string) (notch : Z) (nm : string)
    (pos ring : Z) : outcome Rotor :=
  rotor ← newRotor (str w) notch nm;
  let rotor := on_component (setPosition pos) rotor in
  let rotor := on_component (setRingSetting ring) rotor in
  Ok rotor.

Definition createRotorI : Z -> Z -> outcome Rotor :=
  createRotor "EKMFLGDQVZNTOWYHXUSPAIBRCJ" 16 "Rotor I".

Definition createRotorII : Z -> Z -> outcome Rotor :=
  createRotor "AJDKSIRUXBLHWTMCQGZNPYFVOE" 4 "Rotor II".

Definition createRotorIII : Z -> Z -> outcome Rotor :=
  createRotor "BDFHJLCPRTXVZNYEIWGAKMUSQO" 21 "Rotor III".

Definition createReflectorB : outcome Reflector :=
  newReflector (str "YRUHQSLDPXNGOKMIEBFZCWVJAT") "Reflector B".

Definition createReflectorC : outcome Reflector :=
  newReflector (str "FVPJIAOYEDRZXWGCTKUQSBNMHL") "Reflector C".

(** ** The machines assembled in [main] *)

(** Rotors I, II, III with reflector B, positions A B C, ring settings
    A A A and plugs AB CD EF, as first set up in [main]. *)
Definition main_enigma : outcome EnigmaMachine :=
  r0 ← createRotorI 0 0;
  r1 ← createRotorII 0 0;
  r2 ← createRotorIII 0 0;
  rf ← createReflectorB;
  enigma ← newEnigmaMachine [r0; r1; r2] rf;
  enigma ← setRotorPositions 0 1 2 enigma;
  enigma ← setRingSettings 0 0 0 enigma;
  match setPlugboardConnections
          [("A", "B"); ("C", "D"); ("E", "F")]%char enigma with
  | (enigma, Ok _) => Ok enigma
  | (_, Throw what) => Throw what
  | (_, Undefined) => Undefined
  end.

(** The machine of the stepping demonstration: positions A A U. *)
Definition main_demoEnigma : outcome EnigmaMachine :=
  r0 ← createRotorI 0 0;
  r1 ← createRotorII 0 0;
  r2 ← createRotorIII 20 0;
  rf ← createReflectorB;
  demoEnigma ← newEnigmaMachine [r0; r1; r2] rf;
  setRotorPositions 0 0 20 demoEnigma.


(** * Properties *)

(** ** Characters *)

Definition is_upper (c : ascii) : bool := (65 <=? code c) && (code c <=? 90).
Definition is_alpha (c : ascii) : bool := isalpha (code c).
Definition upcase (c : ascii) : ascii := chr (toupper (code c)).

Lemma code_range c : -128 <= code c < 128.
Proof.
  unfold code. pose proof (N_ascii_bounded c) as Hb.
  destruct (Z.ltb_spec (Z.of_N (N_of_ascii c)) 128); lia.
Qed.

Lemma chr_code c : chr (code c) = c.
Proof.
  unfold chr, code. pose proof (N_ascii_bounded c) as Hb.
  destruct (Z.ltb_spec (Z.of_N (N_of_ascii c)) 128) as [Hlt|Hge].
  - rewrite Z.mod_small by lia. rewrite N2Z.id. apply ascii_N_embedding.
  - replace ((Z.of_N (N_of_ascii c) - 256) mod 256)
      with (Z.of_N (N_of_ascii c)).
    + rewrite N2Z.id. apply ascii_N_embedding.
    + apply Z.mod_unique with (q := -1); lia.
Qed.

Lemma code_chr n : -128 <= n < 128 -> code (chr n) = n.
Proof.
  intros Hn. unfold chr, code.
  assert (Hm : 0 <= n mod 256 < 256) by (apply Z.mod_pos_bound; lia).
  rewrite N_ascii_embedding by lia.
  rewrite Z2N.id by lia.
  destruct (Z.ltb_spec (n mod 256) 128) as [Hlt|Hge].
  - destruct (Z.lt_ge_cases n 0) as [Hneg|Hpos].
    + exfalso. assert (n mod 256 = n + 256)
        by (symmetry; apply Z.mod_unique with (q := -1); lia). lia.
    + apply Z.mod_small. lia.
  - destruct (Z.lt_ge_cases n 0) as [Hneg|Hpos].
    + assert (n mod 256 = n + 256)
        by (symmetry; apply Z.mod_unique with (q := -1); lia). lia.
    + rewrite Z.mod_small in Hge by lia. lia.
Qed.

Lemma code_inj c d : code c = code d -> c = d.
Proof. intros H. rewrite <- (chr_code c), <- (chr_code d). by rewrite H. Qed.

Lemma toupper_range n : -128 <= n < 128 -> -128 <= toupper n < 128.
Proof. unfold toupper. intros. case_match; lia. Qed.

Lemma toupper_idemp n : toupper (toupper n) = toupper n.
Proof.
  unfold toupper.
  destruct ((97 <=? n) && (n <=? 122)) eqn:E; [|by rewrite E].
  apply andb_prop in E as [?%Z.leb_le ?%Z.leb_le].
  destruct (Z.leb_spec 97 (n - 32)); simpl; [lia | done].
Qed.

Lemma code_upcase c : code (upcase c) = toupper (code c).
Proof. apply code_chr, toupper_range, code_range. Qed.

Lemma upcase_idemp c : upcase (upcase c) = upcase c.
Proof. unfold upcase at 1. by rewrite code_upcase, toupper_idemp. Qed.

Lemma charToIndex_upcase c : charToIndex (upcase c) = charToIndex c.
Proof. unfold charToIndex. by rewrite code_upcase, toupper_idemp. Qed.

Lemma is_upper_spec c : is_upper c = true <-> 65 <= code c <= 90.
Proof. unfold is_upper. rewrite andb_true_iff, !Z.leb_le. done. Qed.

Lemma is_alpha_spec c :
  is_alpha c = true <-> 65 <= code c <= 90 \/ 97 <= code c <= 122.
Proof.
  unfold is_alpha, isalpha.
  rewrite orb_true_iff, !andb_true_iff, !Z.leb_le. done.
Qed.

Lemma is_upper_alpha c : is_upper c = true -> is_alpha c = true.
Proof. rewrite is_upper_spec, is_alpha_spec. lia. Qed.

Lemma upcase_upper c : is_upper c = true -> upcase c = c.
Proof.
  rewrite is_upper_spec. intros H. unfold upcase, toupper.
  destruct (Z.leb_spec 97 (code c)); simpl; [lia|]. apply chr_code.
Qed.

Lemma is_upper_upcase c : is_alpha c = true -> is_upper (upcase c) = true.
Proof.
  rewrite is_alpha_spec, is_upper_spec, code_upcase. unfold toupper.
  intros H. destruct (Z.leb_spec 97 (code c)), (Z.leb_spec (code c) 122);
    simpl; lia.
Qed.

(** A character is alphabetic exactly when its index is in the alphabet. *)
Lemma charToIndex_alpha c :
  is_alpha c = true <-> 0 <= charToIndex c < ALPHABET_SIZE.
Proof.
  rewrite is_alpha_spec. unfold charToIndex, toupper, ALPHABET_SIZE.
  change (code FIRST_LETTER) with 65.
  destruct (Z.leb_spec 97 (code c)), (Z.leb_spec (code c) 122); simpl; lia.
Qed.

Lemma charToIndex_upper c : is_upper c = true -> charToIndex c = code c - 65.
Proof.
  rewrite is_upper_spec. intros H. unfold charToIndex, toupper.
  destruct (Z.leb_spec 97 (code c)); simpl; [lia | done].
Qed.

Lemma indexToChar_small i :
  0 <= i < ALPHABET_SIZE -> indexToChar i = chr (65 + i).
Proof.
  intros H. unfold indexToChar. rewrite Z.rem_small by done. done.
Qed.

Lemma is_upper_indexToChar i :
  0 <= i < ALPHABET_SIZE -> is_upper (indexToChar i) = true.
Proof.
  intros H. rewrite indexToChar_small by done. unfold ALPHABET_SIZE in H.
  rewrite is_upper_spec, code_chr; lia.
Qed.

Lemma charToIndex_indexToChar i :
  0 <= i < ALPHABET_SIZE -> charToIndex (indexToChar i) = i.
Proof.
  intros H. rewrite charToIndex_upper by by apply is_upper_indexToChar.
  rewrite indexToChar_small by done. unfold ALPHABET_SIZE in H.
  rewrite code_chr; lia.
Qed.

Lemma indexToChar_charToIndex c :
  is_upper c = true -> indexToChar (charToIndex c) = c.
Proof.
  intros H. pose proof H as H'%is_upper_spec.
  rewrite charToIndex_upper by done.
  rewrite indexToChar_small by (unfold ALPHABET_SIZE; lia).
  replace (65 + (code c - 65)) with (code c) by lia. apply chr_code.
Qed.

Lemma charToIndex_inj_upper c d :
  is_upper c = true -> is_upper d = true ->
  charToIndex c = charToIndex d -> c = d.
Proof.
  intros Hc Hd H. rewrite <- (indexToChar_charToIndex c Hc).
  rewrite <- (indexToChar_charToIndex d Hd). by rewrite H.
Qed.

(** The alphabet, in index order. *)
Definition ALPHABET : list ascii := indexToChar <$> seqZ 0 ALPHABET_SIZE.

Lemma elem_of_ALPHABET c : c ∈ ALPHABET <-> is_upper c = true.
Proof.
  unfold ALPHABET. rewrite list_elem_of_fmap. split.
  - intros (i & -> & Hi%elem_of_seqZ). apply is_upper_indexToChar. lia.
  - intros H. exists (charToIndex c). split.
    + by rewrite indexToChar_charToIndex.
    + apply elem_of_seqZ. apply is_upper_alpha, charToIndex_alpha in H. lia.
Qed.

(** ** Strings as arrays *)

Lemma str_get_lookup (s : list ascii) (i : nat) (c : ascii) :
  s !! i = Some c -> str_get s (Z.of_nat i) = Ok c.
Proof.
  intros H. pose proof (lookup_lt_Some _ _ _ H) as Hlt. unfold str_get.
  destruct (Z.ltb_spec (Z.of_nat i) 0); [lia|].
  destruct (Z.eqb_spec (Z.of_nat i) (Z.of_nat (length s))); [lia|].
  by rewrite Nat2Z.id, H.
Qed.

Lemma str_get_Z (s : list ascii) (i : Z) :
  0 <= i < Z.of_nat (length s) ->
  exists c, s !! Z.to_nat i = Some c /\ str_get s i = Ok c.
Proof.
  intros H. destruct (lookup_lt_is_Some_2 s (Z.to_nat i)) as [c Hc]; [lia|].
  exists c. split; [done|]. apply str_get_lookup in Hc.
  by rewrite Z2Nat.id in Hc by lia.
Qed.

Lemma str_get_Ok_lookup (s : list ascii) (i : Z) (c : ascii) :
  0 <= i < Z.of_nat (length s) -> str_get s i = Ok c ->
  s !! Z.to_nat i = Some c.
Proof.
  intros H Hg. destruct (str_get_Z s i H) as (d & Hd & Hg').
  congruence.
Qed.

Lemma str_set_Ok (s : list ascii) (i : Z) (c : ascii) :
  0 <= i < Z.of_nat (length s) ->
  str_set s i c = Ok (<[Z.to_nat i := c]> s).
Proof.
  intros H. unfold str_set.
  destruct (Z.leb_spec 0 i), (Z.ltb_spec i (Z.of_nat (length s)));
    simpl; (done || lia).
Qed.

(** ** Wiring permutations *)

(** A wiring is valid when its 26 characters are the 26 letters, each
    once (in either case: the program indexes through [charToIndex]). *)
Definition wiring_perm (w : list ascii) : Prop :=
  charToIndex <$> w ≡ₚ seqZ 0 ALPHABET_SIZE.

(** [rw] sends the index of every character of [w] back to the place of
    that character in [w]. *)
Definition inverse_wiring (w rw : list ascii) : Prop :=
  length rw = Z.to_nat ALPHABET_SIZE /\
  forall (j : nat) (c : ascii), w !! j = Some c ->
    rw !! Z.to_nat (charToIndex c) = Some (indexToChar (Z.of_nat j)).

Section wiring.
Variable w : list ascii.
Hypothesis Hw : wiring_perm w.

Lemma wiring_indices : charToIndex <$> w ≡ₚ seqZ 0 ALPHABET_SIZE.
Proof. exact Hw. Qed.

Lemma wiring_length : length w = Z.to_nat ALPHABET_SIZE.
Proof.
  pose proof (Permutation_length wiring_indices) as H.
  by rewrite length_fmap, length_seqZ in H.
Qed.

Lemma wiring_alpha (j : nat) (c : ascii) :
  w !! j = Some c -> is_alpha c = true.
Proof.
  intros H. apply charToIndex_alpha.
  assert (Hin : charToIndex c ∈ charToIndex <$> w).
  { apply list_elem_of_fmap_2. by eapply list_elem_of_lookup_2. }
  rewrite wiring_indices in Hin. apply elem_of_seqZ in Hin. lia.
Qed.

Lemma wiring_inj (i j : nat) (c d : ascii) :
  w !! i = Some c -> w !! j = Some d ->
  charToIndex c = charToIndex d -> i = j.
Proof.
  intros Hi Hj Heq.
  assert (Hnd : NoDup (charToIndex <$> w)).
  { rewrite wiring_indices. apply NoDup_seqZ. }
  eapply (NoDup_lookup _ i j (charToIndex c) Hnd).
  - by rewrite list_lookup_fmap, Hi.
  - by rewrite list_lookup_fmap, Hj, Heq.
Qed.

Lemma wiring_surj (k : Z) :
  0 <= k < ALPHABET_SIZE ->
  exists (j : nat) (c : ascii), w !! j = Some c /\ charToIndex c = k.
Proof.
  intros Hk.
  assert (Hin : k ∈ charToIndex <$> w).
  { rewrite wiring_indices. apply elem_of_seqZ. lia. }
  apply list_elem_of_fmap in Hin as (c & -> & Hc).
  apply list_elem_of_lookup in Hc as [j Hj]. eauto.
Qed.

Lemma wiring_get (i : Z) :
  0 <= i < ALPHABET_SIZE ->
  exists c, w !! Z.to_nat i = Some c /\ str_get w i = Ok c
            /\ is_alpha c = true.
Proof.
  intros Hi. destruct (str_get_Z w i) as (c & Hc & Hg).
  { rewrite wiring_length. unfold ALPHABET_SIZE in *. lia. }
  exists c. eauto using wiring_alpha.
Qed.

Lemma buildReverseWiring_loop_spec (n : nat) :
  forall (i : Z) (rw : list ascii),
    Z.of_nat n + i = ALPHABET_SIZE -> 0 <= i ->
    length rw = Z.to_nat ALPHABET_SIZE ->
    (forall (j : nat) (c : ascii), Z.of_nat j < i -> w !! j = Some c ->
       rw !! Z.to_nat (charToIndex c) = Some (indexToChar (Z.of_nat j))) ->
    exists rw', buildReverseWiring_loop w n i rw = Ok rw'
                /\ inverse_wiring w rw'.
Proof.
  induction n as [|n' IH]; intros i rw Hn Hi Hlen Hinv.
  - exists rw. split; [done|]. split; [done|].
    intros j c Hj. apply Hinv; [|done].
    apply lookup_lt_Some in Hj. rewrite wiring_length in Hj.
    unfold ALPHABET_SIZE in *. lia.
  - destruct (wiring_get i) as (c0 & Hc0 & Hg & Ha); [lia|].
    apply charToIndex_alpha in Ha.
    cbn [buildReverseWiring_loop]. rewrite Hg. cbn.
    rewrite str_set_Ok by (rewrite Hlen; unfold ALPHABET_SIZE in *; lia).
    cbn. apply IH; [lia | lia | by rewrite length_insert |].
    intros j c Hj Hc.
    destruct (decide (j = Z.to_nat i)) as [->|Hne].
    + assert (c = c0) as -> by congruence.
      rewrite Z2Nat.id by lia. apply list_lookup_insert_eq.
      rewrite Hlen. unfold ALPHABET_SIZE in *. lia.
    + rewrite list_lookup_insert_ne; [apply Hinv; [lia | done]|].
      intros Heq. apply Hne.
      pose proof (wiring_alpha _ _ Hc) as Hca%charToIndex_alpha.
      symmetry. eapply wiring_inj; [done | done |]. lia.
Qed.

Lemma buildReverseWiring_spec :
  exists rw, buildReverseWiring w = Ok rw /\ inverse_wiring w rw.
Proof.
  apply buildReverseWiring_loop_spec; [done | done | |].
  - by rewrite length_replicate.
  - intros j c Hj. lia.
Qed.

(** What an inverse wiring gives when read through [charToIndex]. *)
Lemma inverse_wiring_get (rw : list ascii) (k : Z) :
  inverse_wiring w rw -> 0 <= k < ALPHABET_SIZE ->
  exists (j : nat) (c : ascii),
    w !! j = Some c /\ charToIndex c = k
    /\ str_get rw k = Ok (indexToChar (Z.of_nat j))
    /\ 0 <= Z.of_nat j < ALPHABET_SIZE.
Proof.
  intros [Hlen Hinv] Hk. destruct (wiring_surj k Hk) as (j & c & Hj & Hc).
  exists j, c. split; [done|]. split; [done|].
  pose proof (lookup_lt_Some _ _ _ Hj) as Hlt. rewrite wiring_length in Hlt.
  split; [|unfold ALPHABET_SIZE in *; lia].
  apply Hinv in Hj. rewrite Hc in Hj. apply str_get_lookup in Hj.
  by rewrite Z2Nat.id in Hj by lia.
Qed.
End wiring.

(** ** Offsets *)

Definition component_ok (c : EnigmaComponent) : Prop :=
  0 <= position c < ALPHABET_SIZE /\ 0 <= ringSetting c < ALPHABET_SIZE.

Ltac offset_arith :=
  unfold applyOffset, ALPHABET_SIZE in *;
  repeat match goal with
         | |- context [?a <? ?b] => destruct (Z.ltb_spec a b)
         | H : context [?a <? ?b] |- _ => destruct (Z.ltb_spec a b)
         end;
  Z.to_euclidean_division_equations; lia.

Lemma applyOffset_range c s forward :
  component_ok c -> 0 <= s < ALPHABET_SIZE ->
  0 <= applyOffset c s forward < ALPHABET_SIZE.
Proof. intros [Hp Hr] Hs. destruct forward; offset_arith. Qed.

Lemma applyOffset_inj c s s' forward :
  component_ok c -> 0 <= s < ALPHABET_SIZE -> 0 <= s' < ALPHABET_SIZE ->
  applyOffset c s forward = applyOffset c s' forward -> s = s'.
Proof. intros [Hp Hr] Hs Hs' H. destruct forward; offset_arith. Qed.

Lemma rotate_ok c : component_ok c -> component_ok (rotate c).
Proof.
  intros [Hp Hr]. split; [|done]. cbn.
  unfold ALPHABET_SIZE in *. Z.to_euclidean_division_equations; lia.
Qed.

Lemma setPosition_ok pos c :
  0 <= pos -> component_ok c -> component_ok (setPosition pos c).
Proof.
  intros Hpos [Hp Hr]. split; [|done]. cbn.
  unfold ALPHABET_SIZE in *. Z.to_euclidean_division_equations; lia.
Qed.

Lemma setRingSetting_ok setting c :
  0 <= setting -> component_ok c -> component_ok (setRingSetting setting c).
Proof.
  intros Hpos [Hp Hr]. split; [done|]. cbn.
  unfold ALPHABET_SIZE in *. Z.to_euclidean_division_equations; lia.
Qed.

(** ** Substitution tables *)

(** A table read through [str_get] and [charToIndex] is a one-to-one map
    of the 26 indices into the letters. *)
Definition table_total (t : list ascii) : Prop :=
  forall k, 0 <= k < ALPHABET_SIZE ->
    exists c, str_get t k = Ok c /\ is_alpha c = true.

Definition table_inj (t : list ascii) : Prop :=
  forall k k' c c', 0 <= k < ALPHABET_SIZE -> 0 <= k' < ALPHABET_SIZE ->
    str_get t k = Ok c -> str_get t k' = Ok c' ->
    charToIndex c = charToIndex c' -> k = k'.

Lemma wiring_table_total w : wiring_perm w -> table_total w.
Proof.
  intros Hw k Hk. destruct (wiring_get w Hw k Hk) as (c & _ & ? & ?). eauto.
Qed.

Lemma wiring_table_inj w : wiring_perm w -> table_inj w.
Proof.
  intros Hw k k' c c' Hk Hk' Hc Hc' Heq.
  assert (Hlen : Z.of_nat (length w) = ALPHABET_SIZE).
  { rewrite (wiring_length w Hw). done. }
  apply str_get_Ok_lookup in Hc; [|lia].
  apply str_get_Ok_lookup in Hc'; [|lia].
  pose proof (wiring_inj w Hw _ _ _ _ Hc Hc' Heq). lia.
Qed.

Lemma reverse_table_total w rw :
  wiring_perm w -> inverse_wiring w rw -> table_total rw.
Proof.
  intros Hw Hrw k Hk.
  destruct (inverse_wiring_get w Hw rw k Hrw Hk) as (j & c & _ & _ & Hg & Hj).
  eexists. split; [done|]. by apply is_upper_alpha, is_upper_indexToChar.
Qed.

Lemma reverse_table_inj w rw :
  wiring_perm w -> inverse_wiring w rw -> table_inj rw.
Proof.
  intros Hw Hrw k k' c c' Hk Hk' Hc Hc' Heq.
  destruct (inverse_wiring_get w Hw rw k Hrw Hk)
    as (j & d & Hd & Hdk & Hg & Hj).
  destruct (inverse_wiring_get w Hw rw k' Hrw Hk')
    as (j' & d' & Hd' & Hdk' & Hg' & Hj').
  assert (c = indexToChar (Z.of_nat j)) as -> by congruence.
  assert (c' = indexToChar (Z.of_nat j')) as -> by congruence.
  rewrite !charToIndex_indexToChar in Heq by done.
  assert (j = j') as -> by lia. congruence.
Qed.

(** ** Well-formed components *)

(** A rotor as the constructor builds it from a wiring permutation, at
    a position and ring setting in range. *)
Definition rotor_ok (r : Rotor) : Prop :=
  wiring_perm (wiring (component r))
  /\ buildReverseWiring (wiring (component r)) = Ok (reverseWiring r)
  /\ component_ok (component r).

(** A reflector wired with 26 letters. *)
Definition reflector_ok (rf : Reflector) : Prop :=
  length (wiring (refl_component rf)) = Z.to_nat ALPHABET_SIZE
  /\ Forall (fun c => is_alpha c = true) (wiring (refl_component rf)).

Definition reflector_perm (rf : Reflector) : Prop :=
  wiring_perm (wiring (refl_component rf)).

(** The pairing is symmetric and holds upper-cased characters only. *)
Definition plug_sym (pb : Plugboard) : Prop :=
  map_Forall (fun k v => upcase v = v /\ connections pb !! v = Some k)
             (connections pb).

(** Only letters are plugged. *)
Definition plug_letters (pb : Plugboard) : Prop :=
  map_Forall (fun k v => is_upper k = true /\ is_upper v = true)
             (connections pb).

Definition machine_ok (m : EnigmaMachine) : Prop :=
  length (rotors m) = 3%nat
  /\ Forall rotor_ok (rotors m)
  /\ reflector_ok (reflector m)
  /\ plug_sym (plugboard m)
  /\ plug_letters (plugboard m).

Lemma rotor_ok_inverse r :
  rotor_ok r -> inverse_wiring (wiring (component r)) (reverseWiring r).
Proof.
  intros (Hw & Hb & _).
  destruct (buildReverseWiring_spec _ Hw) as (rw & Hb' & Hinv). congruence.
Qed.

Lemma reflector_ok_total rf :
  reflector_ok rf -> table_total (wiring (refl_component rf)).
Proof.
  intros [Hlen Hall] k Hk.
  destruct (str_get_Z (wiring (refl_component rf)) k) as (c & Hc & Hg).
  { rewrite Hlen. unfold ALPHABET_SIZE in *. lia. }
  exists c. split; [done|].
  rewrite Forall_forall in Hall. by eapply Hall, list_elem_of_lookup_2.
Qed.

Lemma reflector_perm_ok rf : reflector_perm rf -> reflector_ok rf.
Proof.
  intros Hw. split; [by apply wiring_length|].
  apply Forall_forall. intros c [j Hj]%list_elem_of_lookup.
  by eapply wiring_alpha.
Qed.

Lemma on_component_ok f r :
  (forall c, wiring (f c) = wiring c) ->
  (component_ok (component r) -> component_ok (f (component r))) ->
  rotor_ok r -> rotor_ok (on_component f r).
Proof.
  intros Hf Hc (Hw & Hrw & Hok). unfold rotor_ok. cbn. rewrite Hf. auto.
Qed.

Lemma rotor_rotate_ok r : rotor_ok r -> rotor_ok (on_component rotate r).
Proof. apply on_component_ok; [done | apply rotate_ok]. Qed.

Lemma newRotor_ok w notch nm :
  wiring_perm w ->
  exists r, newRotor w notch nm = Ok r /\ rotor_ok r
            /\ wiring (component r) = w /\ notchPosition r = notch
            /\ position (component r) = 0 /\ ringSetting (component r) = 0.
Proof.
  intros Hw. destruct (buildReverseWiring_spec w Hw) as (rw & Hb & Hinv).
  unfold newRotor, newEnigmaComponent.
  rewrite (wiring_length w Hw). cbn. rewrite Hb. cbn.
  eexists. split; [done|]. split; [|done].
  split; [done|]. split; [done|]. by split.
Qed.

(** ** Decision procedures, to check concrete machines by evaluation *)

Global Instance outcome_eq_dec {A} `{EqDecision A} : EqDecision (outcome A).
Proof. solve_decision. Defined.

Global Instance wiring_perm_dec w : Decision (wiring_perm w).
Proof. unfold wiring_perm. apply _. Defined.

Global Instance component_ok_dec c : Decision (component_ok c).
Proof. unfold component_ok. apply _. Defined.

Global Instance rotor_ok_dec r : Decision (rotor_ok r).
Proof. unfold rotor_ok. apply _. Defined.

Global Instance reflector_ok_dec rf : Decision (reflector_ok rf).
Proof. unfold reflector_ok. apply _. Defined.

Global Instance reflector_perm_dec rf : Decision (reflector_perm rf).
Proof. unfold reflector_perm. apply _. Defined.

Global Instance plug_sym_dec pb : Decision (plug_sym pb).
Proof. unfold plug_sym. apply _. Defined.

Global Instance plug_letters_dec pb : Decision (plug_letters pb).
Proof. unfold plug_letters. apply _. Defined.

Global Instance machine_ok_dec m : Decision (machine_ok m).
Proof. unfold machine_ok. apply _. Defined.


(** ** Stages of the signal path *)

Lemma bind_Ok_inv {A B} (x : outcome A) (f : A -> outcome B) (b : B) :
  x ≫= f = Ok b -> exists a, x = Ok a /\ f a = Ok b.
Proof. destruct x; cbn; [eauto | done | done]. Qed.

(** A stage never fails on a letter and answers with a letter. *)
Definition stage_total (f : ascii -> outcome ascii) : Prop :=
  forall c, is_alpha c = true ->
    exists d, f c = Ok d /\ is_alpha d = true.

(** A stage keeps letters of different index apart. *)
Definition stage_inj (f : ascii -> outcome ascii) : Prop :=
  forall c c' d d', is_alpha c = true -> is_alpha c' = true ->
    f c = Ok d -> f c' = Ok d' ->
    charToIndex d = charToIndex d' -> charToIndex c = charToIndex c'.

Lemma stage_total_compose f g :
  stage_total f -> stage_total g -> stage_total (fun c => f c ≫= g).
Proof.
  intros Hf Hg c Hc. destruct (Hf c Hc) as (d & Hd & Hda).
  destruct (Hg d Hda) as (e & He & Hea). exists e. by rewrite Hd.
Qed.

Lemma stage_inj_compose f g :
  stage_total f -> stage_inj f -> stage_inj g ->
  stage_inj (fun c => f c ≫= g).
Proof.
  intros Hft Hf Hg c c' e e' Hc Hc' He He' Heq.
  apply bind_Ok_inv in He as (d & Hd & He).
  apply bind_Ok_inv in He' as (d' & Hd' & He').
  destruct (Hft c Hc) as (d1 & Hd1 & Hda).
  destruct (Hft c' Hc') as (d1' & Hd1' & Hda').
  assert (d1 = d) as -> by congruence.
  assert (d1' = d') as -> by congruence.
  eauto.
Qed.

Lemma stage_total_ret : stage_total Ok.
Proof. intros c Hc. eauto. Qed.

Lemma stage_inj_ret : stage_inj Ok.
Proof. intros c c' d d' _ _ H H' Heq. congruence. Qed.

(** *** Rotors *)

Lemma Rotor_process_tables r (forward : bool) :
  rotor_ok r ->
  let t := if forward then wiring (component r) else reverseWiring r in
  table_total t /\ table_inj t.
Proof.
  intros Hr. pose proof (rotor_ok_inverse r Hr) as Hrw.
  destruct Hr as (Hw & _ & _). destruct forward; cbn.
  - eauto using wiring_table_total, wiring_table_inj.
  - eauto using reverse_table_total, reverse_table_inj.
Qed.

Lemma Rotor_process_eq r input forward :
  Rotor_process r input forward =
  str_get (if forward then wiring (component r) else reverseWiring r)
          (applyOffset (component r) (charToIndex input) forward)
  ≫= fun outputChar =>
       Ok (indexToChar (applyOffset (component r) (charToIndex outputChar)
                                    (negb forward))).
Proof. unfold Rotor_process. by destruct forward. Qed.

(** On a letter a rotor answers with an upper-case letter. *)
Lemma Rotor_process_upper r forward c :
  rotor_ok r -> is_alpha c = true ->
  exists d, Rotor_process r c forward = Ok d /\ is_upper d = true.
Proof.
  intros Hr Hc. destruct (Rotor_process_tables r forward Hr) as [Ht _].
  destruct Hr as (_ & _ & Hok). rewrite Rotor_process_eq.
  apply charToIndex_alpha in Hc.
  destruct (Ht (applyOffset (component r) (charToIndex c) forward))
    as (o & -> & Ho); [by apply applyOffset_range|].
  cbn. eexists. split; [done|].
  apply is_upper_indexToChar, applyOffset_range; [done|].
  by apply charToIndex_alpha.
Qed.

Lemma Rotor_process_total r forward :
  rotor_ok r -> stage_total (fun c => Rotor_process r c forward).
Proof.
  intros Hr c Hc.
  destruct (Rotor_process_upper r forward c Hr Hc) as (d & ? & ?).
  eauto using is_upper_alpha.
Qed.

Lemma Rotor_process_inj r forward :
  rotor_ok r -> stage_inj (fun c => Rotor_process r c forward).
Proof.
  intros Hr c c' d d' Hc Hc'.
  destruct (Rotor_process_tables r forward Hr) as [Ht Hi].
  destruct Hr as (_ & _ & Hok). rewrite !Rotor_process_eq.
  apply charToIndex_alpha in Hc, Hc'.
  pose proof (applyOffset_range _ _ forward Hok Hc) as Hs.
  pose proof (applyOffset_range _ _ forward Hok Hc') as Hs'.
  destruct (Ht _ Hs) as (o & Ho & Hoa). destruct (Ht _ Hs') as (o' & Ho' & Hoa').
  rewrite Ho, Ho'. cbn. intros [= <-] [= <-].
  apply charToIndex_alpha in Hoa, Hoa'.
  rewrite !charToIndex_indexToChar by by apply applyOffset_range.
  intros Heq%applyOffset_inj; [|done..].
  pose proof (Hi _ _ _ _ Hs Hs' Ho Ho' Heq) as Heq'.
  by apply applyOffset_inj in Heq'.
Qed.

Lemma rotor_pass_total rs forward :
  Forall rotor_ok rs -> stage_total (rotor_pass rs forward).
Proof.
  induction 1 as [|r rs Hr _ IH]; cbn [rotor_pass].
  - apply stage_total_ret.
  - apply (stage_total_compose (fun c => Rotor_process r c forward));
      [by apply Rotor_process_total | done].
Qed.

Lemma rotor_pass_inj rs forward :
  Forall rotor_ok rs -> stage_inj (rotor_pass rs forward).
Proof.
  induction 1 as [|r rs Hr Hrs IH]; cbn [rotor_pass].
  - apply stage_inj_ret.
  - apply (stage_inj_compose (fun c => Rotor_process r c forward));
      [by apply Rotor_process_total | by apply Rotor_process_inj | done].
Qed.

(** With at least one rotor the pass ends in an upper-case letter. *)
Lemma rotor_pass_upper rs forward c :
  rs <> [] -> Forall rotor_ok rs -> is_alpha c = true ->
  exists d, rotor_pass rs forward c = Ok d /\ is_upper d = true.
Proof.
  intros Hne Hrs. revert c.
  induction Hrs as [|r rs Hr Hrs IH]; [done|]. intros c Hc. cbn.
  destruct (Rotor_process_upper r forward c Hr Hc) as (d & -> & Hd). cbn.
  destruct rs as [|r' rs'].
  - cbn. eauto.
  - apply IH; [done | by apply is_upper_alpha].
Qed.

(** *** Reflector *)

Lemma Reflector_process_total rf :
  reflector_ok rf -> stage_total (fun c => Reflector_process rf c true).
Proof.
  intros Hrf c Hc. apply (reflector_ok_total rf Hrf).
  by apply charToIndex_alpha.
Qed.

Lemma Reflector_process_inj rf :
  reflector_perm rf -> stage_inj (fun c => Reflector_process rf c true).
Proof.
  intros Hrf c c' d d' Hc Hc' Hd Hd' Heq.
  apply charToIndex_alpha in Hc, Hc'.
  exact (wiring_table_inj _ Hrf _ _ _ _ Hc Hc' Hd Hd' Heq).
Qed.

(** *** Plugboard *)

Lemma Plugboard_process_state pb c : (Plugboard_process pb c).1 = pb.
Proof. unfold Plugboard_process. by case_match. Qed.

Lemma Plugboard_process_paired pb c v :
  connections pb !! upcase c = Some v -> (Plugboard_process pb c).2 = v.
Proof. unfold Plugboard_process. fold (upcase c). by intros ->. Qed.

Lemma Plugboard_process_unpaired pb c :
  connections pb !! upcase c = None ->
  (Plugboard_process pb c).2 = upcase c.
Proof. unfold Plugboard_process. fold (upcase c). by intros ->. Qed.

Lemma Plugboard_process_twice pb c :
  plug_sym pb ->
  (Plugboard_process pb (Plugboard_process pb c).2).2 = upcase c.
Proof.
  intros Hsym. destruct (connections pb !! upcase c) as [v|] eqn:E.
  - rewrite (Plugboard_process_paired pb c v E).
    destruct (Hsym _ _ E) as [Hv Hback].
    apply Plugboard_process_paired. by rewrite Hv.
  - rewrite (Plugboard_process_unpaired pb c E).
    rewrite Plugboard_process_unpaired; rewrite upcase_idemp; done.
Qed.

Lemma Plugboard_process_upper pb c :
  plug_letters pb -> is_alpha c = true ->
  is_upper (Plugboard_process pb c).2 = true.
Proof.
  intros Hl Hc. destruct (connections pb !! upcase c) as [v|] eqn:E.
  - rewrite (Plugboard_process_paired pb c v E). by destruct (Hl _ _ E).
  - rewrite (Plugboard_process_unpaired pb c E). by apply is_upper_upcase.
Qed.

Lemma Plugboard_process_total pb :
  plug_letters pb -> stage_total (fun c => Ok (Plugboard_process pb c).2).
Proof.
  intros Hl c Hc. eexists. split; [done|].
  by apply is_upper_alpha, Plugboard_process_upper.
Qed.

Lemma Plugboard_process_inj pb :
  plug_sym pb -> plug_letters pb ->
  stage_inj (fun c => Ok (Plugboard_process pb c).2).
Proof.
  intros Hsym Hl c c' d d' Hc Hc' [= <-] [= <-] Heq.
  apply charToIndex_inj_upper in Heq; [|by apply Plugboard_process_upper..].
  rewrite <- (charToIndex_upcase c), <- (charToIndex_upcase c').
  rewrite <- (Plugboard_process_twice pb c Hsym).
  rewrite <- (Plugboard_process_twice pb c' Hsym). by rewrite Heq.
Qed.

(** ** Stepping *)

(** [rotors[i].rotate()]. *)
Definition advance (r : Rotor) : Rotor := on_component rotate r.

(** What [rotateRotors] does to a machine with three rotors. *)
Lemma rotateRotors_three m r0 r1 r2 :
  rotors m = [r0; r1; r2] ->
  rotateRotors m =
  Ok (mkMachine
        [ (if isAtNotch r1 then advance else id)
            ((if isAtNotch (advance r2) then advance else id) r0);
          (if isAtNotch (advance r2) then advance r1 else r1);
          advance r2 ]
        (reflector m) (plugboard m)).
Proof.
  intros H. unfold rotateRotors. rewrite H.
  cbn -[isAtNotch on_component]. fold (advance r2).
  destruct (isAtNotch (advance r2)); cbn -[isAtNotch on_component];
    destruct (isAtNotch r1); reflexivity.
Qed.

Lemma machine_ok_three m :
  machine_ok m ->
  exists r0 r1 r2, rotors m = [r0; r1; r2]
                   /\ rotor_ok r0 /\ rotor_ok r1 /\ rotor_ok r2.
Proof.
  intros (Hlen & Hrs & _).
  destruct (rotors m) as [|r0 [|r1 [|r2 [|r3 rs]]]]; try done.
  exists r0, r1, r2. split; [done|].
  by repeat (apply Forall_cons in Hrs as [? Hrs]).
Qed.

Lemma rotateRotors_ok m :
  machine_ok m -> exists m', rotateRotors m = Ok m' /\ machine_ok m'.
Proof.
  intros Hm. destruct (machine_ok_three m Hm) as (r0 & r1 & r2 & E & H0 & H1 & H2).
  destruct Hm as (_ & _ & Hrf & Hs & Hl).
  eexists. split; [by apply rotateRotors_three|].
  split; [done|]. split; [|done]. cbn [rotors].
  assert (Hadv : forall (b : bool) r,
             rotor_ok r -> rotor_ok ((if b then advance else id) r)).
  { intros [] r Hr; [by apply rotor_rotate_ok | done]. }
  apply Forall_cons_2; [by do 2 apply Hadv|].
  apply Forall_cons_2; [by destruct (isAtNotch _); [apply rotor_rotate_ok|]|].
  apply Forall_cons_2; [by apply rotor_rotate_ok | apply Forall_nil_2].
Qed.

(** ** The signal path of one character *)

(** Steps 2 to 6 of [encryptChar], on the machine as stepped. *)
Definition signal_path (m : EnigmaMachine) (input : ascii) : outcome ascii :=
  let result := (Plugboard_process (plugboard m) input).2 in
  result ← rotor_pass (reverse (rotors m)) true result;
  result ← Reflector_process (reflector m) result true;
  result ← rotor_pass (rotors m) false result;
  Ok (Plugboard_process (plugboard m) result).2.

Lemma encryptChar_eq m input :
  encryptChar m input =
  rotateRotors m ≫= fun m' =>
  signal_path m' input ≫= fun e => Ok (m', e).
Proof.
  unfold encryptChar, signal_path.
  destruct (rotateRotors m) as [m'| |]; cbn; [|done..].
  destruct (Plugboard_process (plugboard m') input) as [pb c] eqn:E.
  assert (pb = plugboard m') as ->.
  { by rewrite <- (Plugboard_process_state (plugboard m') input), E. }
  cbn. destruct (rotor_pass _ true c) as [c1| |]; cbn; [|done..].
  destruct (Reflector_process _ c1 true) as [c2| |]; cbn; [|done..].
  destruct (rotor_pass _ false c2) as [c3| |]; cbn; [|done..].
  destruct (Plugboard_process (plugboard m') c3) as [pb' c4] eqn:E'.
  assert (pb' = plugboard m') as ->.
  { by rewrite <- (Plugboard_process_state (plugboard m') c3), E'. }
  by destruct m'.
Qed.

(** The state [encryptChar] leaves is the stepped machine. *)
Lemma encryptChar_state m input m' e :
  encryptChar m input = Ok (m', e) -> rotateRotors m = Ok m'.
Proof.
  rewrite encryptChar_eq. intros (m1 & Hm1 & H)%bind_Ok_inv.
  apply bind_Ok_inv in H as (e1 & _ & H). congruence.
Qed.

(** The path up to and including the backward rotor pass. *)
Definition rotor_path (m : EnigmaMachine) (input : ascii) : outcome ascii :=
  let result := (Plugboard_process (plugboard m) input).2 in
  result ← rotor_pass (reverse (rotors m)) true result;
  result ← Reflector_process (reflector m) result true;
  rotor_pass (rotors m) false result.

Lemma signal_path_eq m input :
  signal_path m input =
  rotor_path m input ≫= fun c => Ok (Plugboard_process (plugboard m) c).2.
Proof.
  unfold signal_path, rotor_path. cbn.
  destruct (rotor_pass _ true _) as [c1| |]; cbn; [|done..].
  by destruct (Reflector_process _ c1 true) as [c2| |].
Qed.

(** [rotor_path] as three stages after the plugboard. *)
Lemma rotor_path_stages m :
  rotor_path m =
  fun c => Ok (Plugboard_process (plugboard m) c).2 ≫= fun c =>
           rotor_pass (reverse (rotors m)) true c ≫= fun c =>
           Reflector_process (reflector m) c true ≫=
           rotor_pass (rotors m) false.
Proof. reflexivity. Qed.

Lemma rotor_path_total m : machine_ok m -> stage_total (rotor_path m).
Proof.
  intros (Hlen & Hrs & Hrf & Hs & Hl). rewrite rotor_path_stages.
  apply (stage_total_compose
           (fun c => Ok (Plugboard_process (plugboard m) c).2));
    [by apply Plugboard_process_total|].
  apply (stage_total_compose (rotor_pass (reverse (rotors m)) true));
    [by apply rotor_pass_total, Forall_reverse|].
  apply (stage_total_compose (fun c => Reflector_process (reflector m) c true));
    [by apply Reflector_process_total | by apply rotor_pass_total].
Qed.

Lemma rotor_path_inj m :
  machine_ok m -> reflector_perm (reflector m) -> stage_inj (rotor_path m).
Proof.
  intros (Hlen & Hrs & Hrf & Hs & Hl) Hperm. rewrite rotor_path_stages.
  assert (Hrev : Forall rotor_ok (reverse (rotors m)))
    by by apply Forall_reverse.
  apply (stage_inj_compose
           (fun c => Ok (Plugboard_process (plugboard m) c).2));
    [by apply Plugboard_process_total | by apply Plugboard_process_inj |].
  apply (stage_inj_compose (rotor_pass (reverse (rotors m)) true));
    [by apply rotor_pass_total | by apply rotor_pass_inj |].
  apply (stage_inj_compose (fun c => Reflector_process (reflector m) c true));
    [by apply Reflector_process_total | by apply Reflector_process_inj |].
  by apply rotor_pass_inj.
Qed.

Lemma signal_path_upper m c :
  machine_ok m -> is_alpha c = true ->
  exists d, signal_path m c = Ok d /\ is_upper d = true.
Proof.
  intros Hm Hc. rewrite signal_path_eq.
  destruct (rotor_path_total m Hm c Hc) as (d & -> & Hd). cbn.
  eexists. split; [done|]. destruct Hm as (_ & _ & _ & _ & Hl).
  by apply Plugboard_process_upper.
Qed.

Lemma signal_path_inj m :
  machine_ok m -> reflector_perm (reflector m) -> stage_inj (signal_path m).
Proof.
  intros Hm Hperm c c' d d' Hc Hc'. rewrite !signal_path_eq. revert Hc Hc'.
  apply (stage_inj_compose (rotor_path m)
           (fun c => Ok (Plugboard_process (plugboard m) c).2)).
  - by apply rotor_path_total.
  - by apply rotor_path_inj.
  - destruct Hm as (_ & _ & _ & Hs & Hl). by apply Plugboard_process_inj.
Qed.

(** On a well-formed machine [encryptChar] steps the rotors and answers
    with an upper-case letter. *)
Lemma encryptChar_ok m c :
  machine_ok m -> is_alpha c = true ->
  exists m' d, encryptChar m c = Ok (m', d)
               /\ rotateRotors m = Ok m' /\ signal_path m' c = Ok d
               /\ machine_ok m' /\ is_upper d = true.
Proof.
  intros Hm Hc. destruct (rotateRotors_ok m Hm) as (m' & Hrot & Hm').
  destruct (signal_path_upper m' c Hm' Hc) as (d & Hd & Hu).
  exists m', d. rewrite encryptChar_eq, Hrot. cbn. rewrite Hd. done.
Qed.

(** ** The machines of [main], evaluated *)

Definition value {A} (default : A) (x : outcome A) : A :=
  match x with
  | Ok a => a
  | _ => default
  end.

Definition no_machine : EnigmaMachine :=
  mkMachine [] (mkReflector (mkComponent [] "" 0 0)) newPlugboard.

Definition enigma_ABC : EnigmaMachine :=
  Eval vm_compute in value no_machine main_enigma.

Lemma main_enigma_value : main_enigma = Ok enigma_ABC.
Proof. vm_compute. reflexivity. Qed.

Lemma enigma_ABC_ok : machine_ok enigma_ABC.
Proof. apply (bool_decide_unpack _). vm_compute. exact I. Qed.

Definition enigma_AAU : EnigmaMachine :=
  Eval vm_compute in value no_machine main_demoEnigma.

Lemma main_demoEnigma_value : main_demoEnigma = Ok enigma_AAU.
Proof. vm_compute. reflexivity. Qed.

(** * Alphabet utilities *)

(** C5, as stated, fails: [indexToChar] takes C++'s truncating
    remainder, so a negative index is not wrapped.  [indexToChar (-1)]
    is the character before 'A', not the letter of index 25. *)
Lemma indexToChar_minus_one :
  indexToChar (-1) = "@"%char
  /\ (-1) mod ALPHABET_SIZE = 25
  /\ indexToChar (-1) <> indexToChar 25
  /\ is_upper (indexToChar (-1)) = false.
Proof. vm_compute. repeat split; discriminate. Qed.

(** C5, amended: for every index [n >= 0], [indexToChar n] is the
    upper-case letter whose index is [n mod 26]. *)
Theorem indexToChar_wraps_nonneg (n : Z) :
  0 <= n ->
  indexToChar n = chr (code FIRST_LETTER + n mod ALPHABET_SIZE)
  /\ is_upper (indexToChar n) = true
  /\ charToIndex (indexToChar n) = n mod ALPHABET_SIZE.
Proof.
  intros Hn.
  assert (Hm : 0 <= n mod ALPHABET_SIZE < ALPHABET_SIZE)
    by (apply Z.mod_pos_bound; unfold ALPHABET_SIZE; lia).
  assert (E : indexToChar n = indexToChar (n mod ALPHABET_SIZE)).
  { unfold indexToChar.
    rewrite Z.rem_mod_nonneg by (unfold ALPHABET_SIZE; lia).
    by rewrite (Z.rem_small (n mod ALPHABET_SIZE)). }
  rewrite E. split; [by apply indexToChar_small|].
  auto using is_upper_indexToChar, charToIndex_indexToChar.
Qed.

Lemma indexToChar_wraps_nonneg_witness :
  0 <= 27
  /\ indexToChar 27 = chr (code FIRST_LETTER + 27 mod ALPHABET_SIZE)
  /\ is_upper (indexToChar 27) = true
  /\ charToIndex (indexToChar 27) = 27 mod ALPHABET_SIZE.
Proof. split; [lia | apply (indexToChar_wraps_nonneg 27); lia]. Defined.

(** Below zero the remainder keeps the sign of the index: the result is
    a letter only at the multiples of 26. *)
Lemma indexToChar_negative (n : Z) :
  n < 0 -> Z.rem n ALPHABET_SIZE <> 0 -> is_upper (indexToChar n) = false.
Proof.
  intros Hn Hr. unfold indexToChar, is_upper, ALPHABET_SIZE in *.
  change (code FIRST_LETTER) with 65.
  rewrite code_chr by (Z.to_euclidean_division_equations; lia).
  apply andb_false_iff. left. apply Z.leb_gt.
  Z.to_euclidean_division_equations; lia.
Qed.

(** * Rotor construction *)

(** C4: a rotor built from a wiring permutation holds, as its reverse
    wiring, the inverse of the wiring: for every index [i] in 0..25,
    [reverseWiring[charToIndex(wiring[i])] == indexToChar(i)], that is,
    the reverse wiring sends the index of [wiring[i]] back to [i]. *)
Theorem reverseWiring_inverts_wiring (w : list ascii) (notch : Z) (nm : string) :
  wiring_perm w ->
  exists r, newRotor w notch nm = Ok r
    /\ wiring (component r) = w
    /\ forall i, 0 <= i < ALPHABET_SIZE ->
         exists c d, str_get (wiring (component r)) i = Ok c
           /\ str_get (reverseWiring r) (charToIndex c) = Ok d
           /\ d = indexToChar i
           /\ charToIndex d = i.
Proof.
  intros Hw. destruct (newRotor_ok w notch nm Hw) as (r & Hr & Hok & Ew & _).
  exists r. split; [done|]. split; [done|]. intros i Hi. rewrite Ew.
  destruct (wiring_get w Hw i Hi) as (c & Hc & Hg & Ha).
  destruct (rotor_ok_inverse r Hok) as [Hlen Hinv]. rewrite Ew in Hinv.
  pose proof (Hinv _ _ Hc) as Hrw. apply str_get_lookup in Hrw.
  apply charToIndex_alpha in Ha.
  rewrite !Z2Nat.id in Hrw by lia.
  exists c, (indexToChar i). split; [done|]. split; [done|]. split; [done|].
  by apply charToIndex_indexToChar.
Qed.

Lemma reverseWiring_inverts_wiring_witness :
  exists r, newRotor (str "EKMFLGDQVZNTOWYHXUSPAIBRCJ") 16 "Rotor I" = Ok r
    /\ wiring (component r) = str "EKMFLGDQVZNTOWYHXUSPAIBRCJ"
    /\ forall i, 0 <= i < ALPHABET_SIZE ->
         exists c d, str_get (wiring (component r)) i = Ok c
           /\ str_get (reverseWiring r) (charToIndex c) = Ok d
           /\ d = indexToChar i
           /\ charToIndex d = i.
Proof.
  apply (reverseWiring_inverts_wiring (str "EKMFLGDQVZNTOWYHXUSPAIBRCJ")).
  apply (bool_decide_unpack _). vm_compute. exact I.
Defined.

(** * Stepping *)

Lemma advance_position r :
  position (component (advance r))
  = Z.rem (position (component r) + 1) ALPHABET_SIZE.
Proof. reflexivity. Qed.

(** The rule in the words of C2: the right rotor advances; the middle
    rotor advances exactly when it was itself at its notch, and then the
    left rotor advances too; the left rotor advances as well when it was
    itself at its notch; every notch is read before any rotation. *)
Definition claimed_stepping (m m' : EnigmaMachine) : Prop :=
  exists r0 r1 r2,
    rotors m = [r0; r1; r2]
    /\ rotors m' =
       [ (if isAtNotch r0 then advance else id)
           ((if isAtNotch r1 then advance else id) r0);
         (if isAtNotch r1 then advance r1 else r1);
         advance r2 ].

(** The machine of the stepping demonstration with the middle rotor at
    its notch E: positions A E A, and positions A E U. *)
Definition enigma_AEA : EnigmaMachine :=
  Eval vm_compute in value no_machine (setRotorPositions 0 4 0 enigma_AAU).

Definition enigma_AEU : EnigmaMachine :=
  Eval vm_compute in value no_machine (setRotorPositions 0 4 20 enigma_AAU).

(** C2 does not hold of the code (rotors I, II, III with notches Q, E, V).
    - From A A U neither the middle nor the left rotor is at its notch and
      the rule moves the right rotor only, to A A V; [rotateRotors] moves
      all three, to B B V: it drives the middle rotor from the notch of the
      right rotor, read after the right rotor has advanced, and advances the
      left rotor in that same branch.
    - From A E A the middle rotor is at its notch and the rule moves the
      middle and the left rotor, to B F B; [rotateRotors] leaves the middle
      rotor where it is, B E B: the middle rotor never steps on its own
      notch.
    - From A E U the rule gives B F V; [rotateRotors] advances the left
      rotor twice, C F V. *)
Theorem rotateRotors_stepping_defect :
  (exists m' mc,
     rotateRotors enigma_AAU = Ok m'
     /\ getPositions enigma_AAU = [0; 0; 20]
     /\ getPositions m' = [1; 1; 21]
     /\ claimed_stepping enigma_AAU mc /\ getPositions mc = [0; 0; 21]
     /\ ~ claimed_stepping enigma_AAU m')
  /\ (exists m' mc,
        rotateRotors enigma_AEA = Ok m'
        /\ getPositions enigma_AEA = [0; 4; 0]
        /\ getPositions m' = [1; 4; 1]
        /\ claimed_stepping enigma_AEA mc /\ getPositions mc = [1; 5; 1]
        /\ ~ claimed_stepping enigma_AEA m')
  /\ (exists m' mc,
        rotateRotors enigma_AEU = Ok m'
        /\ getPositions enigma_AEU = [0; 4; 20]
        /\ getPositions m' = [2; 5; 21]
        /\ claimed_stepping enigma_AEU mc /\ getPositions mc = [1; 5; 21]
        /\ ~ claimed_stepping enigma_AEU m').
Proof.
  assert (Hrule : forall m, length (rotors m) = 3%nat ->
            exists mc, claimed_stepping m mc).
  { intros m Hlen. destruct (rotors m) as [|r0 [|r1 [|r2 [|]]]] eqn:E;
      try done.
    eexists (mkMachine _ (reflector m) (plugboard m)).
    exists r0, r1, r2. split; [done | reflexivity]. }
  assert (Hcase : forall m m' ps pc,
            length (rotors m) = 3%nat ->
            rotateRotors m = Ok m' -> getPositions m' = ps ->
            (forall mc, claimed_stepping m mc -> getPositions mc = pc) ->
            ps <> pc ->
            exists mc, claimed_stepping m mc /\ getPositions mc = pc
                       /\ ~ claimed_stepping m m').
  { intros m m' ps pc Hlen Hrot Hps Hpc Hne.
    destruct (Hrule m Hlen) as [mc Hmc]. exists mc.
    split; [done|]. split; [by apply Hpc|].
    intros Hm'. apply Hne. rewrite <- Hps. by apply Hpc. }
  assert (Hpos : forall m pc,
            (forall r0 r1 r2, rotors m = [r0; r1; r2] ->
               map (fun r => getPosition (component r))
                 [ (if isAtNotch r0 then advance else id)
                     ((if isAtNotch r1 then advance else id) r0);
                   (if isAtNotch r1 then advance r1 else r1);
                   advance r2 ] = pc) ->
            forall mc, claimed_stepping m mc -> getPositions mc = pc).
  { intros m pc H mc (r0 & r1 & r2 & E & E'). unfold getPositions.
    rewrite E'. by apply H. }
  split; [|split].
  - eexists.
    destruct (Hcase enigma_AAU _ [1; 1; 21] [0; 0; 21] eq_refl eq_refl eq_refl)
      as (mc & H1 & H2 & H3); [|done|].
    { apply Hpos. intros r0 r1 r2 E. cbv [enigma_AAU rotors] in E.
      injection E as <- <- <-. vm_compute. reflexivity. }
    exists mc. split; [vm_compute; reflexivity|]. by repeat split.
  - eexists.
    destruct (Hcase enigma_AEA _ [1; 4; 1] [1; 5; 1] eq_refl eq_refl eq_refl)
      as (mc & H1 & H2 & H3); [|done|].
    { apply Hpos. intros r0 r1 r2 E. cbv [enigma_AEA rotors] in E.
      injection E as <- <- <-. vm_compute. reflexivity. }
    exists mc. split; [vm_compute; reflexivity|]. by repeat split.
  - eexists.
    destruct (Hcase enigma_AEU _ [2; 5; 21] [1; 5; 21] eq_refl eq_refl eq_refl)
      as (mc & H1 & H2 & H3); [|done|].
    { apply Hpos. intros r0 r1 r2 E. cbv [enigma_AEU rotors] in E.
      injection E as <- <- <-. vm_compute. reflexivity. }
    exists mc. split; [vm_compute; reflexivity|]. by repeat split.
Qed.

(** * Decryption *)

(** The backward pass of a rotor applies the offsets in the order of the
    forward pass turned round, so that it does not undo the forward pass
    once the rotor is away from its ring setting: rotor III at position D
    sends H to U, and U back to L. *)
Example Rotor_process_backward_not_inverse :
  (r ← createRotorIII 3 0;
   u ← Rotor_process r "H" true;
   h ← Rotor_process r u false;
   Ok (u, h)) = Ok ("U", "L")%char.
Proof. vm_compute. reflexivity. Qed.

(** C1 fails on the program's own example: the machine of [main]
    (rotors I, II, III, reflector B, positions A B C, rings A A A, plugs
    AB CD EF) turns HELLOENIGMA into ONUQOHBFHPK and, set back to A B C,
    turns ONUQOHBFHPK into IWWXOCHHSOR. *)
Theorem main_decryption_differs :
  ('(m, encrypted) ← encrypt enigma_ABC (str "HELLOENIGMA");
   m ← setRotorPositions 0 1 2 m;
   '(m, decrypted) ← encrypt m encrypted;
   Ok (encrypted, decrypted))
  = Ok (str "ONUQOHBFHPK", str "IWWXOCHHSOR").
Proof. vm_compute. reflexivity. Qed.

(** * The transform of one character *)

Lemma NoDup_ALPHABET : NoDup ALPHABET.
Proof.
  apply NoDup_fmap_2_strong; [|apply NoDup_seqZ].
  intros i j Hi%elem_of_seqZ Hj%elem_of_seqZ H.
  rewrite <- (charToIndex_indexToChar i), <- (charToIndex_indexToChar j), H;
    [done | lia..].
Qed.

(** A one-to-one map of the upper-case letters into themselves reaches
    every upper-case letter. *)
Lemma letters_onto (f : ascii -> ascii) :
  (forall c, is_upper c = true -> is_upper (f c) = true) ->
  (forall c c', is_upper c = true -> is_upper c' = true ->
                f c = f c' -> c = c') ->
  forall d, is_upper d = true -> exists c, is_upper c = true /\ f c = d.
Proof.
  intros Hin Hinj d Hd.
  assert (Hperm : f <$> ALPHABET ≡ₚ ALPHABET).
  { apply submseteq_length_Permutation; [|by rewrite length_fmap].
    apply NoDup_submseteq.
    - apply NoDup_fmap_2_strong; [|apply NoDup_ALPHABET].
      intros c c' Hc%elem_of_ALPHABET Hc'%elem_of_ALPHABET. by apply Hinj.
    - intros e (c & -> & Hc%elem_of_ALPHABET)%list_elem_of_fmap.
      by apply elem_of_ALPHABET, Hin. }
  apply elem_of_ALPHABET in Hd. rewrite <- Hperm in Hd.
  apply list_elem_of_fmap in Hd as (c & -> & Hc%elem_of_ALPHABET). eauto.
Qed.

Lemma rotateRotors_frame m m' :
  machine_ok m -> rotateRotors m = Ok m' ->
  reflector m' = reflector m /\ plugboard m' = plugboard m.
Proof.
  intros Hm H. destruct (machine_ok_three m Hm) as (r0 & r1 & r2 & E & _).
  rewrite (rotateRotors_three m r0 r1 r2 E) in H. by injection H as <-.
Qed.

(** C3: from a fixed machine state (rotors built from wiring
    permutations, a reflector wired with a permutation, letters on the
    plugboard), [encryptChar] maps the 26 upper-case letters one-to-one
    onto the 26 upper-case letters. *)
Theorem encryptChar_bijection (m : EnigmaMachine) :
  machine_ok m -> reflector_perm (reflector m) ->
  (forall c, is_upper c = true ->
     exists m' d, encryptChar m c = Ok (m', d) /\ is_upper d = true)
  /\ (forall c c' m1 m2 d, is_upper c = true -> is_upper c' = true ->
        encryptChar m c = Ok (m1, d) -> encryptChar m c' = Ok (m2, d) ->
        c = c')
  /\ (forall d, is_upper d = true ->
        exists c m', is_upper c = true /\ encryptChar m c = Ok (m', d)).
Proof.
  intros Hm Hperm.
  destruct (rotateRotors_ok m Hm) as (m' & Hrot & Hm').
  destruct (rotateRotors_frame m m' Hm Hrot) as [Erf _].
  assert (Hperm' : reflector_perm (reflector m')) by by rewrite Erf.
  assert (Henc : forall c d, encryptChar m c = Ok (m', d)
                             <-> signal_path m' c = Ok d).
  { intros c d. rewrite encryptChar_eq, Hrot. cbn.
    destruct (signal_path m' c); cbn; split; congruence. }
  assert (Hstate : forall c m1 d, encryptChar m c = Ok (m1, d) -> m1 = m').
  { intros c m1 d H%encryptChar_state. congruence. }
  assert (Hup : forall c, is_upper c = true ->
                  exists d, signal_path m' c = Ok d /\ is_upper d = true).
  { intros c Hc. by apply signal_path_upper, is_upper_alpha. }
  assert (Hinj : forall c c' d, is_upper c = true -> is_upper c' = true ->
                   signal_path m' c = Ok d -> signal_path m' c' = Ok d ->
                   c = c').
  { intros c c' d Hc Hc' Hd Hd'. apply charToIndex_inj_upper; [done..|].
    eapply (signal_path_inj m' Hm' Hperm' c c' d d);
      eauto using is_upper_alpha. }
  split; [|split].
  - intros c Hc. destruct (Hup c Hc) as (d & Hd & Hdu).
    exists m', d. by rewrite Henc.
  - intros c c' m1 m2 d Hc Hc' H1 H2.
    pose proof (Hstate _ _ _ H1) as ->. pose proof (Hstate _ _ _ H2) as ->.
    apply Henc in H1, H2. eauto.
  - intros d Hd.
    destruct (letters_onto (fun c => value c (signal_path m' c))) with (d := d)
      as (c & Hc & Hfc); [| |done|].
    + intros c Hc. by destruct (Hup c Hc) as (e & -> & He).
    + intros c c' Hc Hc'.
      destruct (Hup c Hc) as (e & He & _), (Hup c' Hc') as (e' & He' & _).
      rewrite He, He'. cbn. intros <-. eauto.
    + exists c, m'. split; [done|]. apply Henc.
      destruct (Hup c Hc) as (e & He & _). rewrite He in Hfc |- *.
      cbn in Hfc. by subst.
Qed.

Lemma encryptChar_bijection_witness :
  (forall c, is_upper c = true ->
     exists m' d, encryptChar enigma_ABC c = Ok (m', d) /\ is_upper d = true)
  /\ (forall c c' m1 m2 d, is_upper c = true -> is_upper c' = true ->
        encryptChar enigma_ABC c = Ok (m1, d) ->
        encryptChar enigma_ABC c' = Ok (m2, d) -> c = c')
  /\ (forall d, is_upper d = true ->
        exists c m', is_upper c = true /\ encryptChar enigma_ABC c = Ok (m', d)).
Proof.
  apply (encryptChar_bijection enigma_ABC).
  - apply (bool_decide_unpack _). vm_compute. exact I.
  - apply (bool_decide_unpack _). vm_compute. exact I.
Defined.

(** * Messages *)

Lemma encrypt_loop_result m message result :
  encrypt_loop m message result =
  encrypt_loop m message [] ≫= fun '(m', out) => Ok (m', result ++ out).
Proof.
  revert m result. induction message as [|c message IH]; intros m result.
  - cbn. by rewrite app_nil_r.
  - cbn [encrypt_loop app]. destruct (isalpha (code c)).
    + destruct (encryptChar m c) as [[m1 e]| |]; cbn; [|done..].
      rewrite (IH m1 (result ++ [e])), (IH m1 [e]).
      destruct (encrypt_loop m1 message []) as [[m2 out]| |]; cbn; [|done..].
      by rewrite <- app_assoc.
    + rewrite (IH m (result ++ [c])), (IH m [c]).
      destruct (encrypt_loop m message []) as [[m2 out]| |]; cbn; [|done..].
      by rewrite <- app_assoc.
Qed.

Lemma encrypt_cons_other m c s :
  is_alpha c = false ->
  encrypt m (c :: s) = encrypt m s ≫= fun '(m', out) => Ok (m', c :: out).
Proof.
  intros Hc. unfold encrypt. cbn [encrypt_loop]. fold (is_alpha c).
  rewrite Hc. cbn. apply encrypt_loop_result.
Qed.

Lemma encrypt_cons_alpha m c s :
  is_alpha c = true ->
  encrypt m (c :: s) =
  encryptChar m c ≫= fun '(m1, e) =>
  encrypt m1 s ≫= fun '(m', out) => Ok (m', e :: out).
Proof.
  intros Hc. unfold encrypt. cbn [encrypt_loop]. fold (is_alpha c).
  rewrite Hc. destruct (encryptChar m c) as [[m1 e]| |]; cbn; [|done..].
  apply encrypt_loop_result.
Qed.

(** [n] calls of [rotateRotors] in a row. *)
Fixpoint rotateRotors_n (n : nat) (m : EnigmaMachine) : outcome EnigmaMachine :=
  match n with
  | O => Ok m
  | S n' => m' ← rotateRotors m; rotateRotors_n n' m'
  end.

(** The number of alphabetic characters of a message. *)
Fixpoint count_letters (s : list ascii) : nat :=
  match s with
  | [] => 0
  | c :: s' => (if is_alpha c then 1 else 0) + count_letters s'
  end.

Lemma encrypt_ok s :
  forall m, machine_ok m ->
    exists m' out, encrypt m s = Ok (m', out)
      /\ Forall2 (fun c e => if is_alpha c then is_upper e = true else e = c)
                 s out
      /\ rotateRotors_n (count_letters s) m = Ok m'
      /\ machine_ok m'.
Proof.
  induction s as [|c s IH]; intros m Hm.
  - exists m, []. split; [done|]. split; [apply Forall2_nil_2|]. by split.
  - destruct (is_alpha c) eqn:Hc.
    + destruct (encryptChar_ok m c Hm Hc) as (m1 & e & He & Hrot & _ & Hm1 & Hu).
      destruct (IH m1 Hm1) as (m' & out & Hout & Hall & Hn & Hm').
      exists m', (e :: out). rewrite (encrypt_cons_alpha m c s Hc), He. cbn.
      rewrite Hout. cbn. split; [done|]. split.
      { apply Forall2_cons_2; [by rewrite Hc | done]. }
      rewrite Hc. cbn. rewrite Hrot. done.
    + destruct (IH m Hm) as (m' & out & Hout & Hall & Hn & Hm').
      exists m', (c :: out). rewrite (encrypt_cons_other m c s Hc), Hout. cbn.
      split; [done|]. split; [|by rewrite Hc].
      apply Forall2_cons_2; [by rewrite Hc | done].
Qed.

(** C6: [encrypt] runs [encryptChar] on the alphabetic characters, in
    order, each giving an upper-case letter, and copies every other
    character as it is, leaving the machine as it was: the rotors step
    once per alphabetic character and not otherwise. *)
Theorem encrypt_passthrough (m : EnigmaMachine) (c : ascii) (s : list ascii) :
  encrypt m [] = Ok (m, [])
  /\ (is_alpha c = false ->
      encrypt m [c] = Ok (m, [c])
      /\ encrypt m (c :: s)
         = encrypt m s ≫= fun '(m', out) => Ok (m', c :: out))
  /\ (is_alpha c = true ->
      encrypt m (c :: s)
      = encryptChar m c ≫= fun '(m1, e) =>
        encrypt m1 s ≫= fun '(m', out) => Ok (m', e :: out))
  /\ (machine_ok m ->
      exists m' out, encrypt m s = Ok (m', out)
        /\ Forall2 (fun c e => if is_alpha c then is_upper e = true else e = c)
                   s out
        /\ rotateRotors_n (count_letters s) m = Ok m'
        /\ machine_ok m').
Proof.
  split; [done|]. split; [|split].
  - intros Hc. split; [|by apply encrypt_cons_other].
    by rewrite (encrypt_cons_other m c [] Hc).
  - apply encrypt_cons_alpha.
  - apply encrypt_ok.
Qed.

Lemma encrypt_passthrough_witness :
  exists m' out,
    encrypt enigma_ABC (str "HELLO, WORLD!") = Ok (m', out)
    /\ Forall2 (fun c e => if is_alpha c then is_upper e = true else e = c)
               (str "HELLO, WORLD!") out
    /\ rotateRotors_n 10 enigma_ABC = Ok m'
    /\ machine_ok m'.
Proof.
  destruct (encrypt_passthrough enigma_ABC "," (str "HELLO, WORLD!"))
    as (_ & _ & _ & H).
  apply H. apply (bool_decide_unpack _). vm_compute. exact I.
Defined.

(** The passthrough vector: only the ten letters change, and the rotors
    end ten steps on, at A B M. *)
Example encrypt_HELLO_WORLD :
  ('(m, out) ← encrypt enigma_ABC (str "HELLO, WORLD!");
   Ok (getPositions m, out))
  = Ok ([0; 1; 12], str "ONUQO, JGZJA!").
Proof. vm_compute. reflexivity. Qed.

(** * Plugboard *)

(** [c], upper-cased, is a key of the map. *)
Definition paired (pb : Plugboard) (c : ascii) : Prop :=
  is_Some (connections pb !! upcase c).

Lemma connect_paired pb a b :
  paired pb a \/ paired pb b ->
  connect pb a b = (pb, Throw "One or both letters are already connected").
Proof.
  intros H. unfold connect. fold (upcase a) (upcase b).
  destruct H as [H|H]; rewrite (bool_decide_eq_true_2 _ H);
    [done | by rewrite orb_true_r].
Qed.

Lemma connect_unpaired pb a b :
  ~ paired pb a -> ~ paired pb b ->
  connect pb a b =
  (mkPlugboard (<[upcase b := upcase a]>
                  (<[upcase a := upcase b]> (connections pb))), Ok tt).
Proof.
  intros Ha Hb. unfold connect. fold (upcase a) (upcase b).
  by rewrite (bool_decide_eq_false_2 _ Ha), (bool_decide_eq_false_2 _ Hb).
Qed.

Lemma connect_cases pb a b :
  (paired pb a \/ paired pb b) /\
    connect pb a b = (pb, Throw "One or both letters are already connected")
  \/ (~ paired pb a /\ ~ paired pb b) /\
     connect pb a b =
     (mkPlugboard (<[upcase b := upcase a]>
                     (<[upcase a := upcase b]> (connections pb))), Ok tt).
Proof.
  destruct (decide (paired pb a)) as [Ha|Ha];
    [left; split; [by left | apply connect_paired; by left]|].
  destruct (decide (paired pb b)) as [Hb|Hb];
    [left; split; [by right | apply connect_paired; by right]|].
  right. split; [done | by apply connect_unpaired].
Qed.

Lemma connect_lookup_fst (m : gmap ascii ascii) (x y : ascii) :
  <[y := x]> (<[x := y]> m) !! x = Some y.
Proof.
  destruct (decide (y = x)) as [->|Hne].
  - apply lookup_insert_eq.
  - rewrite lookup_insert_ne by done. apply lookup_insert_eq.
Qed.

Lemma connect_sym pb a b : plug_sym pb -> plug_sym (connect pb a b).1.
Proof.
  intros Hsym. destruct (connect_cases pb a b) as [[_ ->]|[[Ha Hb] ->]];
    [done|]. cbn. unfold paired in Ha, Hb.
  rewrite <- eq_None_not_Some in Ha, Hb.
  intros k v Hkv. cbn in *.
  apply lookup_insert_Some in Hkv as [[<- <-]|[Hkb Hkv]].
  { split; [apply upcase_idemp | apply connect_lookup_fst]. }
  apply lookup_insert_Some in Hkv as [[<- <-]|[Hka Hkv]].
  { split; [apply upcase_idemp | apply lookup_insert_eq]. }
  destruct (Hsym k v Hkv) as [Hv Hback]. split; [done|].
  rewrite !lookup_insert_ne; [done|congruence..].
Qed.

Lemma connect_letters pb a b :
  is_alpha a = true -> is_alpha b = true ->
  plug_letters pb -> plug_letters (connect pb a b).1.
Proof.
  intros Hla Hlb Hl. destruct (connect_cases pb a b) as [[_ ->]|[_ ->]];
    [done|]. cbn. intros k v Hkv. cbn in *.
  apply is_upper_upcase in Hla, Hlb.
  apply lookup_insert_Some in Hkv as [[<- <-]|[Hkb Hkv]]; [done|].
  apply lookup_insert_Some in Hkv as [[<- <-]|[Hka Hkv]]; [done|].
  by apply (Hl k v).
Qed.

(** C7: [connect(a, b)] throws exactly when [a] or [b], upper-cased, is
    already paired; when it throws the pairing is as before; when it
    returns, [process(a)] is [b] and [process(b)] is [a], upper-cased. *)
Theorem connect_spec (pb : Plugboard) (a b : ascii) :
  ((exists what, (connect pb a b).2 = Throw what)
   <-> paired pb a \/ paired pb b)
  /\ ((connect pb a b).2 = Ok tt <-> ~ (paired pb a \/ paired pb b))
  /\ ((exists what, (connect pb a b).2 = Throw what) ->
      (connect pb a b).1 = pb)
  /\ ((connect pb a b).2 = Ok tt ->
      (Plugboard_process (connect pb a b).1 a).2 = upcase b
      /\ (Plugboard_process (connect pb a b).1 b).2 = upcase a).
Proof.
  destruct (connect_cases pb a b) as [[Hp ->]|[[Ha Hb] ->]]; cbn.
  - split; [split; eauto|]. split; [split; [done | tauto]|].
    split; [done|]. done.
  - split; [split; [by intros [? ?] | tauto]|].
    split; [split; [tauto | done]|].
    split; [by intros [? ?]|]. intros _. split.
    + apply Plugboard_process_paired. cbn. apply connect_lookup_fst.
    + apply Plugboard_process_paired. cbn. apply lookup_insert_eq.
Qed.

(** The vector of the specification. *)
Example connect_A_B :
  let pb := (connect newPlugboard "A" "B").1 in
  (connect newPlugboard "A" "B").2 = Ok tt
  /\ (Plugboard_process pb "A").2 = "B"%char
  /\ (Plugboard_process pb "B").2 = "A"%char
  /\ connect pb "A" "C"
     = (pb, Throw "One or both letters are already connected").
Proof. vm_compute. done. Qed.

(** The plugboards a program can hold: a new one, changed by any calls
    of [connect] (thrown or not), [clearConnections] and [process]. *)
Inductive plug_reachable : Plugboard -> Prop :=
| reach_new : plug_reachable newPlugboard
| reach_connect pb a b :
    plug_reachable pb -> plug_reachable (connect pb a b).1
| reach_clear pb :
    plug_reachable pb -> plug_reachable (clearConnections pb)
| reach_process pb c :
    plug_reachable pb -> plug_reachable (Plugboard_process pb c).1.

Lemma plug_reachable_sym pb : plug_reachable pb -> plug_sym pb.
Proof.
  induction 1 as [|pb a b _ IH|pb _ _|pb c _ IH].
  - apply map_Forall_empty.
  - by apply connect_sym.
  - apply map_Forall_empty.
  - by rewrite Plugboard_process_state.
Qed.

(** C9: on every plugboard a program can reach, [process] is its own
    inverse on the letters of the alphabet (on any character, twice
    [process] is upper-casing), a letter that is not paired maps to
    itself, and [process] leaves the pairing as it is. *)
Theorem Plugboard_process_involution (pb : Plugboard) (x : ascii) :
  plug_reachable pb ->
  (Plugboard_process pb (Plugboard_process pb x).2).2 = upcase x
  /\ (is_upper x = true ->
      (Plugboard_process pb (Plugboard_process pb x).2).2 = x)
  /\ (is_upper x = true -> ~ paired pb x -> (Plugboard_process pb x).2 = x)
  /\ (Plugboard_process pb x).1 = pb.
Proof.
  intros Hsym%plug_reachable_sym.
  pose proof (Plugboard_process_twice pb x Hsym) as H2.
  split; [done|]. split; [|split].
  - intros Hx. by rewrite H2, upcase_upper.
  - intros Hx Hn. unfold paired in Hn. rewrite <- eq_None_not_Some in Hn.
    by rewrite Plugboard_process_unpaired, upcase_upper.
  - apply Plugboard_process_state.
Qed.

Lemma Plugboard_process_involution_witness :
  let pb := (connect (connect newPlugboard "A" "B").1 "C" "D").1 in
  (Plugboard_process pb (Plugboard_process pb "A").2).2 = upcase "A"
  /\ (is_upper "A" = true ->
      (Plugboard_process pb (Plugboard_process pb "A").2).2 = "A"%char)
  /\ (is_upper "A" = true -> ~ paired pb "A" ->
      (Plugboard_process pb "A").2 = "A"%char)
  /\ (Plugboard_process pb "A").1 = pb.
Proof.
  apply (Plugboard_process_involution
           (connect (connect newPlugboard "A" "B").1 "C" "D").1 "A").
  apply reach_connect, reach_connect, reach_new.
Defined.

(** C10: a letter that is not yet paired can be connected to itself:
    [connect(a, a)] returns, records [a] as its own partner, [process(a)]
    is then [a], and every later [connect] naming [a] throws. *)
Theorem connect_self (pb : Plugboard) (a : ascii) :
  ~ paired pb a ->
  let pb' := mkPlugboard (<[upcase a := upcase a]> (connections pb)) in
  connect pb a a = (pb', Ok tt)
  /\ connections pb' !! upcase a = Some (upcase a)
  /\ (Plugboard_process pb' a).2 = upcase a
  /\ (is_upper a = true -> (Plugboard_process pb' a).2 = a)
  /\ (forall b, exists what,
        connect pb' a b = (pb', Throw what)
        /\ connect pb' b a = (pb', Throw what)).
Proof.
  intros Ha pb'.
  assert (Hl : connections pb' !! upcase a = Some (upcase a))
    by apply lookup_insert_eq.
  assert (Hp : (Plugboard_process pb' a).2 = upcase a)
    by by apply Plugboard_process_paired.
  split; [|split; [done|split; [done|split]]].
  - rewrite (connect_unpaired pb a a Ha Ha). by rewrite insert_insert_eq.
  - intros Hu. by rewrite Hp, upcase_upper.
  - intros b. eexists. split; apply connect_paired.
    + left. by exists (upcase a).
    + right. by exists (upcase a).
Qed.

Lemma connect_self_witness :
  ~ paired newPlugboard "Q"
  /\ connect newPlugboard "Q" "Q"
     = (mkPlugboard (<["Q"%char := "Q"%char]> ∅), Ok tt)
  /\ (Plugboard_process (mkPlugboard (<["Q"%char := "Q"%char]> ∅)) "Q").2
     = "Q"%char
  /\ exists what,
       connect (mkPlugboard (<["Q"%char := "Q"%char]> ∅)) "Q" "W"
       = (mkPlugboard (<["Q"%char := "Q"%char]> ∅), Throw what).
Proof.
  assert (H : ~ paired newPlugboard "Q").
  { apply (bool_decide_unpack _). vm_compute. exact I. }
  split; [exact H|].
  destruct (connect_self newPlugboard "Q" H) as (H1 & _ & H2 & _ & H3).
  split; [exact H1|]. split; [exact H2|].
  destruct (H3 "W"%char) as (what & Hw & _). exists what. exact Hw.
Defined.

(** * Construction and totality *)

Lemma newEnigmaComponent_length w nm :
  length w <> Z.to_nat ALPHABET_SIZE ->
  newEnigmaComponent w nm = Throw "Wiring must be exactly 26 characters".
Proof.
  intros H. unfold newEnigmaComponent.
  destruct (Z.eqb_spec (Z.of_nat (length w)) ALPHABET_SIZE) as [E|E];
    [|done]. unfold ALPHABET_SIZE in *. lia.
Qed.

Lemma newReflector_ok w nm :
  length w = Z.to_nat ALPHABET_SIZE ->
  Forall (fun c => is_alpha c = true) w ->
  exists rf, newReflector w nm = Ok rf /\ reflector_ok rf
             /\ wiring (refl_component rf) = w.
Proof.
  intros Hlen Hall. unfold newReflector, newEnigmaComponent.
  rewrite Hlen. cbn. eexists. split; [done|]. by split.
Qed.

Lemma newEnigmaMachine_ok rs rf :
  length rs = 3%nat -> Forall rotor_ok rs -> reflector_ok rf ->
  exists m, newEnigmaMachine rs rf = Ok m /\ machine_ok m
            /\ rotors m = rs /\ reflector m = rf.
Proof.
  intros Hlen Hrs Hrf. unfold newEnigmaMachine. rewrite Hlen. cbn.
  eexists. split; [done|]. split; [|done].
  split; [done|]. split; [done|]. split; [done|].
  split; apply map_Forall_empty.
Qed.

Lemma at_rotor_ok i f rs :
  (forall r, rotor_ok r -> rotor_ok (f r)) ->
  (i < length rs)%nat -> Forall rotor_ok rs ->
  exists rs', at_rotor i f rs = Ok rs' /\ Forall rotor_ok rs'
              /\ length rs' = length rs.
Proof.
  intros Hf Hi Hrs. unfold at_rotor.
  destruct (lookup_lt_is_Some_2 rs i Hi) as [r Hr]. rewrite Hr.
  eexists. split; [done|]. split; [|by rewrite length_insert].
  apply Forall_insert; [done|]. apply Hf.
  rewrite Forall_forall in Hrs. by eapply Hrs, list_elem_of_lookup_2.
Qed.

(** Positions and ring settings given as non-negative integers keep the
    machine well formed. *)
Lemma setRotorPositions_ok left middle right m :
  0 <= left -> 0 <= middle -> 0 <= right -> machine_ok m ->
  exists m', setRotorPositions left middle right m = Ok m' /\ machine_ok m'.
Proof.
  intros Hl Hm Hr (Hlen & Hrs & Hrest). unfold setRotorPositions.
  assert (Hset : forall p, 0 <= p -> forall r,
             rotor_ok r -> rotor_ok (on_component (setPosition p) r)).
  { intros p Hp r. apply on_component_ok; [done | by apply setPosition_ok]. }
  destruct (at_rotor_ok 0 _ (rotors m) (Hset left Hl)) as (rs0 & -> & H0 & L0);
    [lia | done |]. cbn.
  destruct (at_rotor_ok 1 _ rs0 (Hset middle Hm)) as (rs1 & -> & H1 & L1);
    [lia | done |]. cbn.
  destruct (at_rotor_ok 2 _ rs1 (Hset right Hr)) as (rs2 & -> & H2 & L2);
    [lia | done |]. cbn.
  eexists. split; [done|]. split; [cbn; lia|]. by split.
Qed.

Lemma setRingSettings_ok left middle right m :
  0 <= left -> 0 <= middle -> 0 <= right -> machine_ok m ->
  exists m', setRingSettings left middle right m = Ok m' /\ machine_ok m'.
Proof.
  intros Hl Hm Hr (Hlen & Hrs & Hrest). unfold setRingSettings.
  assert (Hset : forall p, 0 <= p -> forall r,
             rotor_ok r -> rotor_ok (on_component (setRingSetting p) r)).
  { intros p Hp r. apply on_component_ok; [done | by apply setRingSetting_ok]. }
  destruct (at_rotor_ok 0 _ (rotors m) (Hset left Hl)) as (rs0 & -> & H0 & L0);
    [lia | done |]. cbn.
  destruct (at_rotor_ok 1 _ rs0 (Hset middle Hm)) as (rs1 & -> & H1 & L1);
    [lia | done |]. cbn.
  destruct (at_rotor_ok 2 _ rs1 (Hset right Hr)) as (rs2 & -> & H2 & L2);
    [lia | done |]. cbn.
  eexists. split; [done|]. split; [cbn; lia|]. by split.
Qed.

(** Plugging letters keeps the machine well formed, whether the calls
    return or throw. *)
Lemma connect_all_ok cs :
  Forall (fun p => is_alpha p.1 = true /\ is_alpha p.2 = true) cs ->
  forall pb, plug_sym pb -> plug_letters pb ->
    plug_sym (connect_all pb cs).1 /\ plug_letters (connect_all pb cs).1.
Proof.
  induction 1 as [|[a b] cs [Ha Hb] _ IH]; intros pb Hs Hl; [done|].
  cbn [connect_all].
  pose proof (connect_sym pb a b Hs) as Hs'.
  pose proof (connect_letters pb a b Ha Hb Hl) as Hl'.
  destruct (connect pb a b) as [pb' [[]| |]]; cbn in *; auto.
Qed.

Lemma setPlugboardConnections_ok cs m :
  Forall (fun p => is_alpha p.1 = true /\ is_alpha p.2 = true) cs ->
  machine_ok m -> machine_ok (setPlugboardConnections cs m).1.
Proof.
  intros Hcs (Hlen & Hrs & Hrf & _ & _). unfold setPlugboardConnections.
  destruct (connect_all_ok cs Hcs (clearConnections (plugboard m)))
    as [Hs Hl]; [apply map_Forall_empty..|].
  destruct (connect_all _ cs) as [pb res]. cbn in *.
  split; [done|]. split; [done|]. split; [done|]. by split.
Qed.

(** Nothing on the path of a character throws: a call either returns
    or reads outside a string or the rotor vector. *)
Definition no_throw {A} (x : outcome A) : Prop :=
  forall what, x <> Throw what.

Lemma no_throw_bind {A B} (x : outcome A) (f : A -> outcome B) :
  no_throw x -> (forall a, no_throw (f a)) -> no_throw (x ≫= f).
Proof.
  intros Hx Hf what. destruct x as [a|w|]; cbn; [apply Hf | | done].
  by destruct (Hx w).
Qed.

Lemma no_throw_Ok {A} (a : A) : no_throw (Ok a).
Proof. done. Qed.

Lemma str_get_no_throw s i : no_throw (str_get s i).
Proof. intros what. unfold str_get. by repeat case_match. Qed.

Lemma at_rotor_no_throw i f rs : no_throw (at_rotor i f rs).
Proof. intros what. unfold at_rotor. by case_match. Qed.

Lemma rotor_at_no_throw i rs : no_throw (rotor_at i rs).
Proof. intros what. unfold rotor_at. by case_match. Qed.

Lemma Rotor_process_no_throw r c forward :
  no_throw (Rotor_process r c forward).
Proof.
  rewrite Rotor_process_eq.
  apply no_throw_bind; [apply str_get_no_throw | intros; apply no_throw_Ok].
Qed.

Lemma rotor_pass_no_throw rs forward c : no_throw (rotor_pass rs forward c).
Proof.
  revert c. induction rs as [|r rs IH]; intros c; cbn; [apply no_throw_Ok|].
  apply no_throw_bind; [apply Rotor_process_no_throw | done].
Qed.

Lemma rotateRotors_no_throw m : no_throw (rotateRotors m).
Proof.
  unfold rotateRotors.
  apply no_throw_bind; [apply at_rotor_no_throw | intros rs].
  apply no_throw_bind; [apply rotor_at_no_throw | intros r2].
  apply no_throw_bind; [apply rotor_at_no_throw | intros r1].
  apply no_throw_bind.
  { destruct (isAtNotch r2); [|apply no_throw_Ok].
    apply no_throw_bind; [|intros]; apply at_rotor_no_throw. }
  intros rs'. apply no_throw_bind; [|intros; apply no_throw_Ok].
  destruct (isAtNotch r1); [apply at_rotor_no_throw | apply no_throw_Ok].
Qed.

Lemma encryptChar_no_throw m c : no_throw (encryptChar m c).
Proof.
  rewrite encryptChar_eq.
  apply no_throw_bind; [apply rotateRotors_no_throw | intros m'].
  apply no_throw_bind; [|intros; apply no_throw_Ok].
  unfold signal_path. cbn zeta.
  apply no_throw_bind; [apply rotor_pass_no_throw | intros c1].
  apply no_throw_bind; [apply str_get_no_throw | intros c2].
  apply no_throw_bind; [apply rotor_pass_no_throw | intros c3].
  apply no_throw_Ok.
Qed.

Lemma encrypt_loop_no_throw s : forall m result, no_throw (encrypt_loop m s result).
Proof.
  induction s as [|c s IH]; intros m result; cbn [encrypt_loop];
    [apply no_throw_Ok|].
  destruct (isalpha (code c)); [|apply IH].
  apply no_throw_bind; [apply encryptChar_no_throw|]. intros [m1 e]. apply IH.
Qed.

(** A reflector of 26 blanks passes construction. *)
Definition blank_machine : outcome EnigmaMachine :=
  r0 ← createRotorI 0 0;
  r1 ← createRotorII 0 0;
  r2 ← createRotorIII 0 0;
  rf ← newReflector (replicate 26 " "%char) "Blank";
  newEnigmaMachine [r0; r1; r2] rf.

(** C8, as stated, fails in its second half: construction checks the
    length of a wiring and nothing else.  With a reflector of 26 blanks
    every constructor returns, and [encryptChar] then reads the reverse
    wiring of the left rotor at index -7. *)
Lemma encryptChar_blank_reflector :
  exists m, blank_machine = Ok m
    /\ encryptChar m "A" = Undefined
    /\ charToIndex " " = -33
    /\ (r ← rotor_at 0 (rotors m);
        Ok (applyOffset (component r) (charToIndex " ") false)) = Ok (-7).
Proof. eexists. split; [vm_compute; reflexivity|]. by vm_compute. Qed.

(** C8, amended: a rotor or reflector wiring whose length is not 26 makes
    the constructor throw, and so does a rotor count other than three;
    [encryptChar] and [encrypt] never throw; three rotors built from
    wiring permutations and a reflector wired with 26 letters make a
    well-formed machine; and on a well-formed machine (positions and ring
    settings in 0..25, letters on the plugboard) [encryptChar] returns for
    every letter and [encrypt] for every text, every index staying inside
    its string, and leaves the machine well formed. *)
Theorem construction_and_totality :
  (forall w nm notch,
     length w <> Z.to_nat ALPHABET_SIZE ->
     newRotor w notch nm = Throw "Wiring must be exactly 26 characters"
     /\ newReflector w nm = Throw "Wiring must be exactly 26 characters")
  /\ (forall rs rf,
        length rs <> 3%nat ->
        newEnigmaMachine rs rf
        = Throw "Enigma machine requires exactly 3 rotors")
  /\ (forall m c s, no_throw (encryptChar m c) /\ no_throw (encrypt m s))
  /\ (forall w0 w1 w2 wr n0 n1 n2 nm0 nm1 nm2 nmr,
        wiring_perm w0 -> wiring_perm w1 -> wiring_perm w2 ->
        length wr = Z.to_nat ALPHABET_SIZE ->
        Forall (fun c => is_alpha c = true) wr ->
        exists r0 r1 r2 rf m,
          newRotor w0 n0 nm0 = Ok r0 /\ newRotor w1 n1 nm1 = Ok r1
          /\ newRotor w2 n2 nm2 = Ok r2 /\ newReflector wr nmr = Ok rf
          /\ newEnigmaMachine [r0; r1; r2] rf = Ok m /\ machine_ok m)
  /\ (forall m,
        machine_ok m ->
        (forall c, is_alpha c = true ->
           exists m' e, encryptChar m c = Ok (m', e) /\ machine_ok m')
        /\ (forall s, exists m' out,
              encrypt m s = Ok (m', out) /\ machine_ok m')).
Proof.
  split; [|split; [|split; [|split]]].
  - intros w nm notch H. unfold newRotor, newReflector.
    by rewrite (newEnigmaComponent_length w nm H).
  - intros rs rf H. unfold newEnigmaMachine.
    by destruct (Nat.eqb_spec (length rs) 3).
  - intros m c s. split; [apply encryptChar_no_throw|].
    apply encrypt_loop_no_throw.
  - intros w0 w1 w2 wr n0 n1 n2 nm0 nm1 nm2 nmr H0 H1 H2 Hlen Hall.
    destruct (newRotor_ok w0 n0 nm0 H0) as (r0 & E0 & Hr0 & _).
    destruct (newRotor_ok w1 n1 nm1 H1) as (r1 & E1 & Hr1 & _).
    destruct (newRotor_ok w2 n2 nm2 H2) as (r2 & E2 & Hr2 & _).
    destruct (newReflector_ok wr nmr Hlen Hall) as (rf & Erf & Hrf & _).
    destruct (newEnigmaMachine_ok [r0; r1; r2] rf) as (m & Em & Hm & _);
      [done | by repeat apply Forall_cons_2 | done |].
    exists r0, r1, r2, rf, m.
    split; [done|]. split; [done|]. split; [done|]. split; [done|]. by split.
  - intros m Hm. split.
    + intros c Hc.
      destruct (encryptChar_ok m c Hm Hc) as (m' & e & ? & _ & _ & ? & _).
      eauto.
    + intros s. destruct (encrypt_ok s m Hm) as (m' & out & ? & _ & _ & ?).
      eauto.
Qed.

Lemma construction_and_totality_witness :
  (forall c, is_alpha c = true ->
     exists m' e, encryptChar enigma_ABC c = Ok (m', e) /\ machine_ok m')
  /\ (forall s, exists m' out,
        encrypt enigma_ABC s = Ok (m', out) /\ machine_ok m').
Proof.
  destruct construction_and_totality as (_ & _ & _ & _ & H).
  apply (H enigma_ABC). apply (bool_decide_unpack _). vm_compute. exact I.
Defined.

(** * Further properties of the components *)

(** ** Offsets, positions and ring settings *)

(** X1: at a position and ring setting in 0..25, [applyOffset] with
    [forward] false undoes [applyOffset] with [forward] true on every
    index in 0..25, and the other way round. *)
Theorem applyOffset_round_trip (c : EnigmaComponent) (s : Z) :
  component_ok c -> 0 <= s < ALPHABET_SIZE ->
  applyOffset c (applyOffset c s true) false = s
  /\ applyOffset c (applyOffset c s false) true = s.
Proof. intros [Hp Hr] Hs. split; offset_arith. Qed.

Lemma applyOffset_round_trip_witness :
  applyOffset (mkComponent [] "" 3 25) (applyOffset (mkComponent [] "" 3 25) 24 true) false = 24
  /\ applyOffset (mkComponent [] "" 3 25) (applyOffset (mkComponent [] "" 3 25) 24 false) true = 24.
Proof.
  apply (applyOffset_round_trip (mkComponent [] "" 3 25) 24);
    [split; cbn; unfold ALPHABET_SIZE; lia | unfold ALPHABET_SIZE; lia].
Defined.

Lemma iter_rotate (n : nat) (c : EnigmaComponent) :
  component_ok c ->
  Nat.iter n rotate c
  = mkComponent (wiring c) (name c)
      ((position c + Z.of_nat n) mod ALPHABET_SIZE) (ringSetting c).
Proof.
  intros [Hp Hr]. induction n as [|n IH].
  - cbn. rewrite Z.add_0_r, Z.mod_small by done. by destruct c.
  - rewrite Nat.iter_succ, IH, Nat2Z.inj_succ. unfold rotate.
    cbn [position wiring name ringSetting]. f_equal.
    pose proof (Z.mod_pos_bound (position c + Z.of_nat n) ALPHABET_SIZE
                  eq_refl) as Hm.
    rewrite Z.rem_mod_nonneg by (unfold ALPHABET_SIZE in *; lia).
    rewrite Z.add_mod_idemp_l by done. f_equal. lia.
Qed.

(** X2: [rotate] is cyclic with period 26: from a position in 0..25,
    [n] rotations lead to position [(position + n) mod 26], and 26
    rotations give the component back unchanged. *)
Theorem rotate_cyclic (n : nat) (c : EnigmaComponent) :
  component_ok c ->
  position (Nat.iter n rotate c) = (position c + Z.of_nat n) mod ALPHABET_SIZE
  /\ component_ok (Nat.iter n rotate c)
  /\ Nat.iter 26 rotate c = c.
Proof.
  intros Hc. rewrite !iter_rotate by done. destruct Hc as [Hp Hr].
  split; [done|]. split.
  - split; [cbn; apply Z.mod_pos_bound; unfold ALPHABET_SIZE; lia | done].
  - replace ((position c + Z.of_nat 26) mod ALPHABET_SIZE) with (position c);
      [by destruct c|].
    unfold ALPHABET_SIZE in *. Z.to_euclidean_division_equations; lia.
Qed.

Lemma rotate_cyclic_witness :
  position (Nat.iter 30 rotate (mkComponent [] "" 25 7)) = (25 + 30) mod ALPHABET_SIZE
  /\ component_ok (Nat.iter 30 rotate (mkComponent [] "" 25 7))
  /\ Nat.iter 26 rotate (mkComponent [] "" 25 7) = mkComponent [] "" 25 7.
Proof.
  apply (rotate_cyclic 30 (mkComponent [] "" 25 7)).
  split; cbn; unfold ALPHABET_SIZE; lia.
Defined.

(** X3: [setPosition] reduces a non-negative argument into 0..25, but
    keeps the sign of a negative one: the position is then
    [-((-pos) mod 26)], below zero unless [pos] is a multiple of 26, and
    later rotations do not bring it back into 0..25 before it reaches
    zero. *)
Theorem setPosition_sign (pos : Z) (c : EnigmaComponent) :
  (0 <= pos ->
   position (setPosition pos c) = pos mod ALPHABET_SIZE)
  /\ (pos < 0 ->
      position (setPosition pos c) = - ((- pos) mod ALPHABET_SIZE)
      /\ - ALPHABET_SIZE < position (setPosition pos c) <= 0
      /\ (position (setPosition pos c) < 0 ->
          position (rotate (setPosition pos c))
          = position (setPosition pos c) + 1)).
Proof.
  unfold setPosition, rotate, ALPHABET_SIZE. cbn. split.
  - intros H. apply Z.rem_mod_nonneg; lia.
  - intros H.
    assert (E : Z.rem pos 26 = - ((- pos) mod 26)).
    { rewrite <- (Z.opp_involutive pos) at 1.
      rewrite Z.rem_opp_l by lia. by rewrite Z.rem_mod_nonneg by lia. }
    pose proof (Z.mod_pos_bound (- pos) 26 eq_refl) as Hm.
    rewrite E. clear E. revert Hm. generalize ((- pos) mod 26). intros v Hv.
    split; [done|]. split; [lia|]. intros Hneg.
    replace (- v + 1) with (- (v - 1)) by lia.
    rewrite Z.rem_opp_l by lia. by rewrite Z.rem_small by lia.
Qed.

Lemma setRotorPositions_three left middle right m r0 r1 r2 :
  rotors m = [r0; r1; r2] ->
  setRotorPositions left middle right m =
  Ok (mkMachine [on_component (setPosition left) r0;
                 on_component (setPosition middle) r1;
                 on_component (setPosition right) r2]
                (reflector m) (plugboard m)).
Proof. intros E. unfold setRotorPositions. by rewrite E. Qed.

Lemma setRingSettings_three left middle right m r0 r1 r2 :
  rotors m = [r0; r1; r2] ->
  setRingSettings left middle right m =
  Ok (mkMachine [on_component (setRingSetting left) r0;
                 on_component (setRingSetting middle) r1;
                 on_component (setRingSetting right) r2]
                (reflector m) (plugboard m)).
Proof. intros E. unfold setRingSettings. by rewrite E. Qed.

(** Two rotors that differ at most in position and ring setting. *)
Definition same_wheel (r r' : Rotor) : Prop :=
  wiring (component r') = wiring (component r)
  /\ reverseWiring r' = reverseWiring r
  /\ notchPosition r' = notchPosition r.

Definition getRingSettings (m : EnigmaMachine) : list Z :=
  map (fun r => ringSetting (component r)) (rotors m).

(** X4: on a well-formed machine, [setRotorPositions] with non-negative
    arguments returns, sets the three positions to the arguments reduced
    mod 26, keeps the machine well formed, and changes nothing else: ring
    settings, wirings, notches, reflector and plugboard stay. *)
Theorem setRotorPositions_spec (left middle right : Z) (m : EnigmaMachine) :
  machine_ok m -> 0 <= left -> 0 <= middle -> 0 <= right ->
  exists m', setRotorPositions left middle right m = Ok m'
    /\ machine_ok m'
    /\ getPositions m' = [left mod ALPHABET_SIZE; middle mod ALPHABET_SIZE;
                          right mod ALPHABET_SIZE]
    /\ getRingSettings m' = getRingSettings m
    /\ Forall2 same_wheel (rotors m) (rotors m')
    /\ reflector m' = reflector m /\ plugboard m' = plugboard m.
Proof.
  intros Hm Hl Hmid Hr.
  destruct (machine_ok_three m Hm) as (r0 & r1 & r2 & E & H0 & H1 & H2).
  destruct (setRotorPositions_ok left middle right m Hl Hmid Hr Hm)
    as (m' & Hset & Hm').
  exists m'. split; [done|]. split; [done|].
  rewrite (setRotorPositions_three _ _ _ m r0 r1 r2 E) in Hset.
  injection Hset as <-. unfold getPositions, getRingSettings. rewrite E. cbn.
  rewrite !Z.rem_mod_nonneg by (unfold ALPHABET_SIZE; lia).
  split; [done|]. split; [done|]. split; [|done].
  by repeat apply Forall2_cons_2; try apply Forall2_nil_2.
Qed.

Lemma setRotorPositions_spec_witness :
  exists m', setRotorPositions 30 1 52 enigma_ABC = Ok m'
    /\ machine_ok m'
    /\ getPositions m' = [30 mod ALPHABET_SIZE; 1 mod ALPHABET_SIZE;
                          52 mod ALPHABET_SIZE]
    /\ getRingSettings m' = getRingSettings enigma_ABC
    /\ Forall2 same_wheel (rotors enigma_ABC) (rotors m')
    /\ reflector m' = reflector enigma_ABC
    /\ plugboard m' = plugboard enigma_ABC.
Proof.
  apply (setRotorPositions_spec 30 1 52 enigma_ABC); [|lia..].
  apply (bool_decide_unpack _). vm_compute. exact I.
Defined.

(** X5: on a well-formed machine, [setRingSettings] with non-negative
    arguments returns, sets the three ring settings to the arguments
    reduced mod 26, keeps the machine well formed, and leaves positions,
    wirings, notches, reflector and plugboard as they are. *)
Theorem setRingSettings_spec (left middle right : Z) (m : EnigmaMachine) :
  machine_ok m -> 0 <= left -> 0 <= middle -> 0 <= right ->
  exists m', setRingSettings left middle right m = Ok m'
    /\ machine_ok m'
    /\ getRingSettings m' = [left mod ALPHABET_SIZE; middle mod ALPHABET_SIZE;
                             right mod ALPHABET_SIZE]
    /\ getPositions m' = getPositions m
    /\ Forall2 same_wheel (rotors m) (rotors m')
    /\ reflector m' = reflector m /\ plugboard m' = plugboard m.
Proof.
  intros Hm Hl Hmid Hr.
  destruct (machine_ok_three m Hm) as (r0 & r1 & r2 & E & H0 & H1 & H2).
  destruct (setRingSettings_ok left middle right m Hl Hmid Hr Hm)
    as (m' & Hset & Hm').
  exists m'. split; [done|]. split; [done|].
  rewrite (setRingSettings_three _ _ _ m r0 r1 r2 E) in Hset.
  injection Hset as <-. unfold getPositions, getRingSettings. rewrite E. cbn.
  rewrite !Z.rem_mod_nonneg by (unfold ALPHABET_SIZE; lia).
  split; [done|]. split; [done|]. split; [|done].
  by repeat apply Forall2_cons_2; try apply Forall2_nil_2.
Qed.

Lemma setRingSettings_spec_witness :
  exists m', setRingSettings 27 2 3 enigma_ABC = Ok m'
    /\ machine_ok m'
    /\ getRingSettings m' = [27 mod ALPHABET_SIZE; 2 mod ALPHABET_SIZE;
                             3 mod ALPHABET_SIZE]
    /\ getPositions m' = getPositions enigma_ABC
    /\ Forall2 same_wheel (rotors enigma_ABC) (rotors m')
    /\ reflector m' = reflector enigma_ABC
    /\ plugboard m' = plugboard enigma_ABC.
Proof.
  apply (setRingSettings_spec 27 2 3 enigma_ABC); [|lia..].
  apply (bool_decide_unpack _). vm_compute. exact I.
Defined.

(** ** One rotor, both directions *)

(** The offset of the rotor is its own opposite mod 26 (it is 0 or 13). *)
Definition offset_self_inverse (r : Rotor) : Prop :=
  (2 * (position (component r) - ringSetting (component r)))
    mod ALPHABET_SIZE = 0.

Global Instance offset_self_inverse_dec r : Decision (offset_self_inverse r).
Proof. unfold offset_self_inverse. apply _. Defined.

Lemma applyOffset_self_inverse r s f f' :
  rotor_ok r -> offset_self_inverse r -> 0 <= s < ALPHABET_SIZE ->
  applyOffset (component r) (applyOffset (component r) s f) f' = s.
Proof.
  intros (_ & _ & [Hp Hr]) Ho Hs. unfold offset_self_inverse in Ho.
  destruct f, f'; offset_arith.
Qed.

Lemma Rotor_process_upcase r c forward :
  Rotor_process r (upcase c) forward = Rotor_process r c forward.
Proof. unfold Rotor_process. by rewrite charToIndex_upcase. Qed.

(** What a rotor computes on a letter, index by index. *)
Lemma Rotor_process_forward r c :
  rotor_ok r -> is_alpha c = true ->
  exists (j : nat) (o : ascii),
    Z.of_nat j = applyOffset (component r) (charToIndex c) true
    /\ wiring (component r) !! j = Some o
    /\ Rotor_process r c true
       = Ok (indexToChar (applyOffset (component r) (charToIndex o) false))
    /\ 0 <= charToIndex o < ALPHABET_SIZE.
Proof.
  intros Hr Hc. pose proof Hr as (Hw & _ & Hok).
  apply charToIndex_alpha in Hc.
  pose proof (applyOffset_range _ _ true Hok Hc) as Hs.
  destruct (wiring_get _ Hw _ Hs) as (o & Ho & Hg & Hoa).
  exists (Z.to_nat (applyOffset (component r) (charToIndex c) true)), o.
  split; [lia|]. split; [done|]. rewrite Rotor_process_eq, Hg.
  split; [done | by apply charToIndex_alpha].
Qed.

Lemma Rotor_process_backward r c :
  rotor_ok r -> is_alpha c = true ->
  exists (j : nat) (o : ascii),
    wiring (component r) !! j = Some o
    /\ charToIndex o = applyOffset (component r) (charToIndex c) false
    /\ Rotor_process r c false
       = Ok (indexToChar (applyOffset (component r) (Z.of_nat j) true))
    /\ 0 <= Z.of_nat j < ALPHABET_SIZE.
Proof.
  intros Hr Hc. pose proof (rotor_ok_inverse r Hr) as Hinv.
  pose proof Hr as (Hw & _ & Hok). apply charToIndex_alpha in Hc.
  pose proof (applyOffset_range _ _ false Hok Hc) as Hs.
  destruct (inverse_wiring_get _ Hw _ _ Hinv Hs) as (j & o & Ho & Hoi & Hg & Hj).
  exists j, o. split; [done|]. split; [done|]. rewrite Rotor_process_eq, Hg.
  cbn. by rewrite charToIndex_indexToChar.
Qed.

Lemma Rotor_process_round_trip r c :
  rotor_ok r -> offset_self_inverse r -> is_alpha c = true ->
  (exists d, Rotor_process r c true = Ok d /\ is_upper d = true
             /\ Rotor_process r d false = Ok (upcase c))
  /\ (exists d, Rotor_process r c false = Ok d /\ is_upper d = true
                /\ Rotor_process r d true = Ok (upcase c)).
Proof.
  intros Hr Ho Hc. pose proof Hr as (Hw & _ & Hok).
  pose proof Hc as Hci%charToIndex_alpha.
  assert (Hup : indexToChar (charToIndex c) = upcase c).
  { rewrite <- charToIndex_upcase.
    by apply indexToChar_charToIndex, is_upper_upcase. }
  split.
  - destruct (Rotor_process_forward r c Hr Hc) as (j & o & Hj & Hlook & Hf & Hoi).
    pose proof (applyOffset_range _ _ false Hok Hoi) as Hd.
    eexists. split; [exact Hf|]. split; [by apply is_upper_indexToChar|].
    destruct (Rotor_process_backward r
                (indexToChar (applyOffset (component r) (charToIndex o) false)))
      as (j' & o' & Hlook' & Ho' & Hb & Hj');
      [done | by apply is_upper_alpha, is_upper_indexToChar |].
    rewrite charToIndex_indexToChar in Ho' by done.
    rewrite (applyOffset_self_inverse r _ false false Hr Ho Hoi) in Ho'.
    assert (j' = j) as -> by (eapply wiring_inj; eauto).
    rewrite Hb, Hj, (applyOffset_self_inverse r _ true true Hr Ho Hci).
    by rewrite Hup.
  - destruct (Rotor_process_backward r c Hr Hc) as (j & o & Hlook & Ho' & Hb & Hj).
    pose proof (applyOffset_range _ _ true Hok Hj) as Hd.
    eexists. split; [exact Hb|]. split; [by apply is_upper_indexToChar|].
    destruct (Rotor_process_forward r
                (indexToChar (applyOffset (component r) (Z.of_nat j) true)))
      as (j' & o' & Hj' & Hlook' & Hf & Hoi');
      [done | by apply is_upper_alpha, is_upper_indexToChar |].
    rewrite charToIndex_indexToChar in Hj' by done.
    rewrite (applyOffset_self_inverse r _ true true Hr Ho Hj) in Hj'.
    assert (j' = j) as -> by lia.
    assert (o' = o) as -> by congruence.
    rewrite Hf, Ho', (applyOffset_self_inverse r _ false false Hr Ho Hci).
    by rewrite Hup.
Qed.

(** X6: when the offset of a rotor (position minus ring setting) is 0 or
    13 mod 26, its backward pass undoes its forward pass on every
    upper-case letter, and its forward pass undoes its backward pass. *)
Theorem Rotor_process_inverse_passes (r : Rotor) (c : ascii) :
  rotor_ok r -> offset_self_inverse r -> is_upper c = true ->
  (exists d, Rotor_process r c true = Ok d /\ Rotor_process r d false = Ok c)
  /\ (exists d, Rotor_process r c false = Ok d
                /\ Rotor_process r d true = Ok c).
Proof.
  intros Hr Ho Hc.
  destruct (Rotor_process_round_trip r c Hr Ho (is_upper_alpha c Hc))
    as [(d & Hd & _ & Hback) (e & He & _ & Hforth)].
  rewrite (upcase_upper c Hc) in Hback, Hforth.
  split; [by exists d | by exists e].
Qed.

Definition rotor_I_at_N : Rotor :=
  Eval vm_compute in
    value (mkRotor (mkComponent [] "" 0 0) [] 0) (createRotorI 13 0).

Lemma Rotor_process_inverse_passes_witness :
  (exists d, Rotor_process rotor_I_at_N "H" true = Ok d
             /\ Rotor_process rotor_I_at_N d false = Ok "H"%char)
  /\ (exists d, Rotor_process rotor_I_at_N "H" false = Ok d
                /\ Rotor_process rotor_I_at_N d true = Ok "H"%char).
Proof.
  apply (Rotor_process_inverse_passes rotor_I_at_N "H").
  - apply (bool_decide_unpack _). vm_compute. exact I.
  - apply (bool_decide_unpack _). vm_compute. exact I.
  - reflexivity.
Defined.

(** X7: in either direction a rotor built from a wiring permutation, at a
    position and ring setting in 0..25, permutes the 26 upper-case
    letters: it answers every letter with an upper-case letter, sends
    different letters to different letters and reaches every letter. *)
Theorem Rotor_process_permutes (r : Rotor) (forward : bool) :
  rotor_ok r ->
  (forall c, is_upper c = true ->
     exists d, Rotor_process r c forward = Ok d /\ is_upper d = true)
  /\ (forall c c' d, is_upper c = true -> is_upper c' = true ->
        Rotor_process r c forward = Ok d ->
        Rotor_process r c' forward = Ok d -> c = c')
  /\ (forall d, is_upper d = true ->
        exists c, is_upper c = true /\ Rotor_process r c forward = Ok d).
Proof.
  intros Hr.
  assert (Hup : forall c, is_upper c = true ->
            exists d, Rotor_process r c forward = Ok d /\ is_upper d = true).
  { intros c Hc. by apply Rotor_process_upper, is_upper_alpha. }
  assert (Hinj : forall c c' d, is_upper c = true -> is_upper c' = true ->
            Rotor_process r c forward = Ok d ->
            Rotor_process r c' forward = Ok d -> c = c').
  { intros c c' d Hc Hc' Hd Hd'. apply charToIndex_inj_upper; [done..|].
    eapply (Rotor_process_inj r forward Hr c c' d d);
      eauto using is_upper_alpha. }
  split; [done|]. split; [done|]. intros d Hd.
  destruct (letters_onto (fun c => value c (Rotor_process r c forward)))
    with (d := d) as (c & Hc & Hfc); [| |done|].
  - intros c Hc. by destruct (Hup c Hc) as (e & -> & He).
  - intros c c' Hc Hc'.
    destruct (Hup c Hc) as (e & He & _), (Hup c' Hc') as (e' & He' & _).
    rewrite He, He'. cbn. intros <-. eauto.
  - exists c. split; [done|]. destruct (Hup c Hc) as (e & He & _).
    rewrite He in Hfc |- *. cbn in Hfc. by subst.
Qed.

Lemma Rotor_process_permutes_witness :
  (forall c, is_upper c = true ->
     exists d, Rotor_process rotor_I_at_N c false = Ok d /\ is_upper d = true)
  /\ (forall c c' d, is_upper c = true -> is_upper c' = true ->
        Rotor_process rotor_I_at_N c false = Ok d ->
        Rotor_process rotor_I_at_N c' false = Ok d -> c = c')
  /\ (forall d, is_upper d = true ->
        exists c, is_upper c = true
                  /\ Rotor_process rotor_I_at_N c false = Ok d).
Proof.
  apply (Rotor_process_permutes rotor_I_at_N false).
  apply (bool_decide_unpack _). vm_compute. exact I.
Defined.

(** ** When the signal path is its own inverse *)

(** Reflecting twice gives every upper-case letter back. *)
Definition reflector_involution (rf : Reflector) : Prop :=
  Forall (fun c => Reflector_process rf c true
                   ≫= (fun d => Reflector_process rf d true) = Ok c)
         ALPHABET.

Global Instance reflector_involution_dec rf :
  Decision (reflector_involution rf).
Proof. unfold reflector_involution. apply _. Defined.

Lemma rotor_pass_app rs1 rs2 forward c :
  rotor_pass (rs1 ++ rs2) forward c
  = rotor_pass rs1 forward c ≫= rotor_pass rs2 forward.
Proof.
  revert c. induction rs1 as [|r rs1 IH]; intros c; [done|]. cbn.
  destruct (Rotor_process r c forward) as [d| |]; cbn; [apply IH | done..].
Qed.

Lemma bind_Ok {A B} (a : A) (f : A -> outcome B) : Ok a ≫= f = f a.
Proof. reflexivity. Qed.

Lemma rotor_pass_cons r rs forward c :
  rotor_pass (r :: rs) forward c
  = Rotor_process r c forward ≫= rotor_pass rs forward.
Proof. reflexivity. Qed.

Lemma rotor_pass_one r forward c :
  rotor_pass [r] forward c = Rotor_process r c forward.
Proof. rewrite rotor_pass_cons. by destruct (Rotor_process r c forward). Qed.

Lemma rotor_pass_upcase rs forward c :
  rs <> [] -> rotor_pass rs forward (upcase c) = rotor_pass rs forward c.
Proof. destruct rs as [|r rs]; [done|]. cbn. by rewrite Rotor_process_upcase. Qed.

Lemma Reflector_process_upcase rf c forward :
  Reflector_process rf (upcase c) forward = Reflector_process rf c forward.
Proof. unfold Reflector_process. by rewrite charToIndex_upcase. Qed.

Lemma rotor_pass_round_trip rs :
  Forall rotor_ok rs -> Forall offset_self_inverse rs ->
  forall c, is_upper c = true ->
    (exists d, rotor_pass (reverse rs) true c = Ok d /\ is_upper d = true
               /\ rotor_pass rs false d = Ok c)
    /\ (exists d, rotor_pass rs false c = Ok d /\ is_upper d = true
                  /\ rotor_pass (reverse rs) true d = Ok c).
Proof.
  intros Hrs Hos. induction Hrs as [|r rs Hr Hrs IH]; intros c Hc.
  - split; exists c; by rewrite ?reverse_nil.
  - apply Forall_cons in Hos as [Ho Hos]. specialize (IH Hos).
    rewrite reverse_cons. split.
    + destruct (IH c Hc) as [(d1 & Hd1 & Hu1 & Hback) _].
      destruct (Rotor_process_round_trip r d1 Hr Ho (is_upper_alpha _ Hu1))
        as [(d & Hd & Hu & Hb) _].
      rewrite (upcase_upper d1 Hu1) in Hb.
      exists d. rewrite rotor_pass_app, Hd1, bind_Ok, rotor_pass_one, Hd.
      split; [done|]. split; [done|].
      by rewrite rotor_pass_cons, Hb, bind_Ok.
    + destruct (Rotor_process_round_trip r c Hr Ho (is_upper_alpha _ Hc))
        as [_ (d1 & Hd1 & Hu1 & Hforth)].
      rewrite (upcase_upper c Hc) in Hforth.
      destruct (IH d1 Hu1) as [_ (d & Hd & Hu & Hf)].
      exists d. rewrite rotor_pass_cons, Hd1, bind_Ok, Hd.
      split; [done|]. split; [done|].
      by rewrite rotor_pass_app, Hf, bind_Ok, rotor_pass_one.
Qed.

Lemma signal_path_involution m c :
  machine_ok m -> Forall offset_self_inverse (rotors m) ->
  reflector_involution (reflector m) -> is_upper c = true ->
  exists d, signal_path m c = Ok d /\ is_upper d = true
            /\ signal_path m d = Ok c.
Proof.
  intros Hm Hos Hinv Hc. pose proof Hm as (Hlen & Hrs & Hrf & Hs & Hl).
  assert (Hne : rotors m <> []) by by destruct (rotors m).
  pose proof (rotor_pass_round_trip (rotors m) Hrs Hos) as Hrt.
  set (p1 := (Plugboard_process (plugboard m) c).2).
  assert (Hp1 : is_upper p1 = true)
    by by apply Plugboard_process_upper, is_upper_alpha.
  destruct (Hrt p1 Hp1) as [(x & Hx & Hxu & Hxb) _].
  unfold reflector_involution in Hinv. rewrite Forall_forall in Hinv.
  pose proof (Hinv x (proj2 (elem_of_ALPHABET x) Hxu)) as Hrefl.
  apply bind_Ok_inv in Hrefl as (y & Hy & Hyx).
  destruct (Reflector_process_total _ Hrf x (is_upper_alpha _ Hxu))
    as (y' & Hy' & Hya).
  assert (y' = y) as -> by congruence.
  destruct (Hrt (upcase y) (is_upper_upcase _ Hya)) as [_ (z & Hz & Hzu & Hzf)].
  rewrite rotor_pass_upcase in Hz by done.
  exists (Plugboard_process (plugboard m) z).2.
  split; [|split].
  - unfold signal_path. fold p1. cbn zeta.
    by rewrite Hx, bind_Ok, Hy, bind_Ok, Hz, bind_Ok.
  - by apply Plugboard_process_upper, is_upper_alpha.
  - unfold signal_path. cbn zeta.
    rewrite (Plugboard_process_twice _ z Hs), (upcase_upper z Hzu), Hzf.
    rewrite bind_Ok, Reflector_process_upcase, Hyx, bind_Ok, Hxb, bind_Ok.
    unfold p1. by rewrite (Plugboard_process_twice _ c Hs), upcase_upper.
Qed.

(** X8: [encryptChar] decrypts what it encrypted, from the same state,
    whenever the rotors it has stepped to all sit at offset 0 or 13 from
    their ring settings and the reflector is an involution: then the
    letter it returns for [c] is sent back to [c]. *)
Theorem encryptChar_self_inverse (m m' : EnigmaMachine) (c : ascii) :
  machine_ok m -> rotateRotors m = Ok m' ->
  Forall offset_self_inverse (rotors m') ->
  reflector_involution (reflector m) -> is_upper c = true ->
  exists d, encryptChar m c = Ok (m', d) /\ is_upper d = true
            /\ encryptChar m d = Ok (m', c).
Proof.
  intros Hm Hrot Hos Hinv Hc.
  destruct (rotateRotors_ok m Hm) as (m1 & Hrot1 & Hm').
  assert (m1 = m') as -> by congruence.
  destruct (rotateRotors_frame m m' Hm Hrot) as [Erf _].
  rewrite <- Erf in Hinv.
  destruct (signal_path_involution m' c Hm' Hos Hinv Hc) as (d & Hd & Hu & Hb).
  exists d. rewrite !encryptChar_eq, Hrot, !bind_Ok. by rewrite Hd, Hb.
Qed.

Definition enigma_AAZ : EnigmaMachine :=
  Eval vm_compute in value no_machine (setRotorPositions 0 0 25 enigma_ABC).

Definition enigma_AAA : EnigmaMachine :=
  Eval vm_compute in value no_machine (rotateRotors enigma_AAZ).

Lemma encryptChar_self_inverse_witness :
  exists d, encryptChar enigma_AAZ "H" = Ok (enigma_AAA, d)
            /\ is_upper d = true
            /\ encryptChar enigma_AAZ d = Ok (enigma_AAA, "H"%char).
Proof.
  apply (encryptChar_self_inverse enigma_AAZ enigma_AAA "H").
  - apply (bool_decide_unpack _). vm_compute. exact I.
  - vm_compute. reflexivity.
  - apply (bool_decide_unpack _). vm_compute. exact I.
  - apply (bool_decide_unpack _). vm_compute. exact I.
  - reflexivity.
Defined.

(** * Further properties of messages *)

(** X9: encrypting a text in two pieces, the second from the state the
    first leaves, gives the same output and final state as encrypting it
    at once, on any machine and whether or not the calls return. *)
Theorem encrypt_app (m : EnigmaMachine) (s1 s2 : list ascii) :
  encrypt m (s1 ++ s2)
  = encrypt m s1 ≫= fun '(m1, out1) =>
    encrypt m1 s2 ≫= fun '(m2, out2) => Ok (m2, out1 ++ out2).
Proof.
  revert m. induction s1 as [|c s1 IH]; intros m.
  - cbn [app]. change (encrypt m []) with (Ok (m, @nil ascii)).
    rewrite bind_Ok. by destruct (encrypt m s2) as [[m2 out2]| |].
  - cbn [app]. destruct (is_alpha c) eqn:Hc.
    + rewrite !(encrypt_cons_alpha _ c) by done.
      destruct (encryptChar m c) as [[m1 e]| |]; [|done..].
      rewrite !bind_Ok, IH.
      destruct (encrypt m1 s1) as [[m2 out1]| |]; [|done..].
      rewrite !bind_Ok.
      by destruct (encrypt m2 s2) as [[m3 out2]| |].
    + rewrite !(encrypt_cons_other _ c) by done. rewrite IH.
      destruct (encrypt m s1) as [[m2 out1]| |]; [|done..].
      rewrite !bind_Ok.
      by destruct (encrypt m2 s2) as [[m3 out2]| |].
Qed.

Lemma is_alpha_upcase c : is_alpha (upcase c) = is_alpha c.
Proof.
  apply eq_true_iff_eq. rewrite !is_alpha_spec, code_upcase.
  unfold toupper.
  destruct (Z.leb_spec 97 (code c)), (Z.leb_spec (code c) 122); simpl; lia.
Qed.

Lemma upcase_other c : is_alpha c = false -> upcase c = c.
Proof.
  intros H. unfold upcase, toupper.
  destruct (Z.leb_spec 97 (code c)), (Z.leb_spec (code c) 122); simpl;
    try apply chr_code.
  assert (is_alpha c = true) by (apply is_alpha_spec; lia). congruence.
Qed.

Lemma Plugboard_process_upcase pb c :
  Plugboard_process pb (upcase c) = Plugboard_process pb c.
Proof.
  unfold Plugboard_process. fold (upcase (upcase c)) (upcase c).
  by rewrite upcase_idemp.
Qed.

Lemma encryptChar_upcase m c : encryptChar m (upcase c) = encryptChar m c.
Proof.
  rewrite !encryptChar_eq. destruct (rotateRotors m) as [m'| |]; [|done..].
  rewrite !bind_Ok. unfold signal_path. by rewrite Plugboard_process_upcase.
Qed.

(** X10: [encrypt] does not see the case of its input: a text and the
    same text in upper case give the same output and final state, on any
    machine. *)
Theorem encrypt_case_insensitive (m : EnigmaMachine) (s : list ascii) :
  encrypt m (upcase <$> s) = encrypt m s.
Proof.
  revert m. induction s as [|c s IH]; intros m; [done|]. cbn [fmap list_fmap].
  destruct (is_alpha c) eqn:Hc.
  - rewrite (encrypt_cons_alpha m c s Hc).
    rewrite (encrypt_cons_alpha m (upcase c)) by by rewrite is_alpha_upcase.
    rewrite encryptChar_upcase.
    destruct (encryptChar m c) as [[m1 e]| |]; [|done..].
    by rewrite !bind_Ok, IH.
  - rewrite (upcase_other c Hc), !(encrypt_cons_other m c) by done.
    by rewrite IH.
Qed.

(** X11: a text without alphabetic characters comes back as it is and
    leaves the machine untouched, whatever the machine (well formed or
    not). *)
Theorem encrypt_no_letters (m : EnigmaMachine) (s : list ascii) :
  Forall (fun c => is_alpha c = false) s -> encrypt m s = Ok (m, s).
Proof.
  induction 1 as [|c s Hc _ IH]; [done|].
  by rewrite (encrypt_cons_other m c s Hc), IH.
Qed.

Lemma encrypt_no_letters_witness :
  encrypt no_machine (str "1914-18, 1939-45!") = Ok (no_machine, str "1914-18, 1939-45!").
Proof.
  apply (encrypt_no_letters no_machine (str "1914-18, 1939-45!")).
  apply (bool_decide_unpack _). vm_compute. exact I.
Defined.

(** * Further properties of stepping *)

Lemma rotateRotors_n_right (n : nat) :
  forall m r0 r1 r2,
    machine_ok m -> rotors m = [r0; r1; r2] ->
    exists m' r0' r1',
      rotateRotors_n n m = Ok m' /\ machine_ok m'
      /\ rotors m' = [r0'; r1'; Nat.iter n advance r2]
      /\ reflector m' = reflector m /\ plugboard m' = plugboard m.
Proof.
  induction n as [|n IH]; intros m r0 r1 r2 Hm E.
  - exists m, r0, r1. split; [done|]. split; [done|]. by split.
  - destruct (rotateRotors_ok m Hm) as (m1 & Hrot & Hm1).
    pose proof Hrot as Hrot'.
    rewrite (rotateRotors_three m r0 r1 r2 E) in Hrot'.
    injection Hrot' as Em1. subst m1.
    destruct (IH _ _ _ (advance r2) Hm1 eq_refl)
      as (m' & r0' & r1' & Hn & Hm' & E' & Hrf & Hpb).
    exists m', r0', r1'. cbn [rotateRotors_n]. rewrite Hrot, bind_Ok.
    split; [done|]. split; [done|]. split; [|done].
    by rewrite E', Nat.iter_succ_r.
Qed.

Lemma iter_advance (n : nat) (r : Rotor) :
  Nat.iter n advance r = on_component (Nat.iter n rotate) r.
Proof.
  induction n as [|n IH]; [by destruct r|].
  by rewrite !Nat.iter_succ, IH.
Qed.

(** X12: the right rotor counts the letters: after [encrypt] of a text
    on a well-formed machine, the right rotor stands at its old position
    plus the number of alphabetic characters of the text, mod 26;
    reflector and plugboard are as before. *)
Theorem encrypt_right_rotor (m : EnigmaMachine) (r0 r1 r2 : Rotor)
    (s : list ascii) :
  machine_ok m -> rotors m = [r0; r1; r2] ->
  exists m' out l mid,
    encrypt m s = Ok (m', out)
    /\ getPositions m'
       = [l; mid; (position (component r2) + Z.of_nat (count_letters s))
                    mod ALPHABET_SIZE]
    /\ reflector m' = reflector m /\ plugboard m' = plugboard m.
Proof.
  intros Hm E. destruct (encrypt_ok s m Hm) as (m' & out & Henc & _ & Hn & _).
  destruct (rotateRotors_n_right (count_letters s) m r0 r1 r2 Hm E)
    as (m1 & r0' & r1' & Hn' & _ & E' & Hrf & Hpb).
  assert (m1 = m') as -> by congruence.
  exists m', out, (position (component r0')), (position (component r1')).
  split; [done|]. split; [|done]. unfold getPositions. rewrite E'. cbn.
  rewrite iter_advance. cbn. unfold getPosition.
  destruct (machine_ok_three m Hm) as (? & ? & r2' & E2 & _ & _ & H2).
  assert (r2' = r2) as -> by congruence.
  destruct H2 as (_ & _ & Hok). by rewrite iter_rotate.
Qed.

Lemma encrypt_right_rotor_witness :
  exists r0 r1 r2 m' out l mid,
    rotors enigma_ABC = [r0; r1; r2]
    /\ encrypt enigma_ABC (str "HELLO, WORLD!") = Ok (m', out)
    /\ getPositions m'
       = [l; mid; (position (component r2)
                   + Z.of_nat (count_letters (str "HELLO, WORLD!")))
                    mod ALPHABET_SIZE]
    /\ reflector m' = reflector enigma_ABC
    /\ plugboard m' = plugboard enigma_ABC.
Proof.
  do 3 eexists.
  destruct (encrypt_right_rotor enigma_ABC _ _ _ (str "HELLO, WORLD!")
              ltac:(apply (bool_decide_unpack _); vm_compute; exact I)
              eq_refl) as (m' & out & l & mid & H).
  exists m', out, l, mid. split; [reflexivity | exact H].
Defined.

(** X13: the constructor stores the notch as given; when the notch of
    the right rotor lies outside 0..25 the rotor never reaches it, and
    the middle rotor never moves, however many steps are taken. *)
Theorem notch_out_of_range (n : nat) (m : EnigmaMachine) (r0 r1 r2 : Rotor) :
  machine_ok m -> rotors m = [r0; r1; r2] ->
  ~ 0 <= notchPosition r2 < ALPHABET_SIZE ->
  exists m' r0',
    rotateRotors_n n m = Ok m'
    /\ rotors m' = [r0'; r1; Nat.iter n advance r2].
Proof.
  revert m r0 r2. induction n as [|n IH]; intros m r0 r2 Hm E Hnotch.
  - by exists m, r0.
  - destruct (rotateRotors_ok m Hm) as (m1 & Hrot & Hm1).
    pose proof Hrot as Hrot'.
    rewrite (rotateRotors_three m r0 r1 r2 E) in Hrot'.
    destruct (machine_ok_three m Hm) as (? & ? & r2' & E2 & _ & _ & H2).
    assert (r2' = r2) as -> by congruence.
    assert (Hno : isAtNotch (advance r2) = false).
    { destruct H2 as (_ & _ & Hok). apply rotate_ok in Hok as [Hp _].
      unfold isAtNotch. apply Z.eqb_neq. cbn [advance on_component component
        notchPosition]. lia. }
    rewrite Hno in Hrot'. injection Hrot' as Em1. subst m1.
    destruct (IH _ _ (advance r2) Hm1 eq_refl Hnotch) as (m' & r0' & Hn & E').
    exists m', r0'. cbn [rotateRotors_n]. rewrite Hrot, bind_Ok.
    split; [done|]. by rewrite E', Nat.iter_succ_r.
Qed.

Definition enigma_no_carry : EnigmaMachine :=
  Eval vm_compute in
    value no_machine
      (r0 ← createRotorI 0 0;
       r1 ← createRotorII 0 0;
       r2 ← newRotor (str "BDFHJLCPRTXVZNYEIWGAKMUSQO") 26 "Rotor III";
       rf ← createReflectorB;
       newEnigmaMachine [r0; r1; r2] rf).

Lemma notch_out_of_range_witness :
  exists r0 r1 r2 m' r0',
    rotors enigma_no_carry = [r0; r1; r2]
    /\ rotateRotors_n 100 enigma_no_carry = Ok m'
    /\ rotors m' = [r0'; r1; Nat.iter 100 advance r2].
Proof.
  do 3 eexists.
  destruct (notch_out_of_range 100 enigma_no_carry _ _ _
              ltac:(apply (bool_decide_unpack _); vm_compute; exact I)
              eq_refl
              ltac:(apply (bool_decide_unpack _); vm_compute; exact I))
    as (m' & r0' & H).
  exists m', r0'. split; [reflexivity | exact H].
Defined.

(** * Further properties of the plugboard *)

(** X14: [connect] does not depend on the order or the case of its two
    letters: [connect(b, a)] and [connect] of the upper-cased letters
    leave the same plugboard with the same outcome as [connect(a, b)]. *)
Theorem connect_symmetric (pb : Plugboard) (a b : ascii) :
  connect pb b a = connect pb a b
  /\ connect pb (upcase a) (upcase b) = connect pb a b.
Proof.
  split.
  - destruct (connect_cases pb a b) as [[Hp ->]|[[Ha Hb] ->]].
    + apply connect_paired. tauto.
    + rewrite (connect_unpaired pb b a Hb Ha). do 2 f_equal.
      destruct (decide (upcase a = upcase b)) as [->|Hne]; [done|].
      by apply insert_insert_ne.
  - unfold connect. fold (upcase (upcase a)) (upcase (upcase b)).
    by rewrite !upcase_idemp.
Qed.

(** X15: a [connect] that returns changes the partners of its two
    letters only: [process] of any character whose upper case is neither
    of them answers as before. *)
Theorem connect_frame (pb : Plugboard) (a b x : ascii) :
  (connect pb a b).2 = Ok tt ->
  upcase x <> upcase a -> upcase x <> upcase b ->
  (Plugboard_process (connect pb a b).1 x).2 = (Plugboard_process pb x).2.
Proof.
  intros Hok Ha Hb.
  destruct (connect_cases pb a b) as [[_ E]|[_ E]]; rewrite E in Hok |- *;
    [done|].
  cbn [fst]. destruct (connections pb !! upcase x) as [v|] eqn:Hx.
  - rewrite (Plugboard_process_paired pb x v Hx).
    apply Plugboard_process_paired. cbn [connections].
    by rewrite !lookup_insert_ne by congruence.
  - rewrite (Plugboard_process_unpaired pb x Hx).
    apply Plugboard_process_unpaired. cbn [connections].
    by rewrite !lookup_insert_ne by congruence.
Qed.

Lemma connect_frame_witness :
  (Plugboard_process (connect newPlugboard "a" "b").1 "c").2
  = (Plugboard_process newPlugboard "c").2.
Proof.
  apply (connect_frame newPlugboard "a" "b" "c"); [reflexivity | | ];
    vm_compute; discriminate.
Defined.




(** The letters a list of pairs names, upper-cased, in order. *)
Definition pair_letters (cs : list (ascii * ascii)) : list ascii :=
  cs ≫= fun p => [upcase p.1; upcase p.2].

Lemma connect_all_app pb cs1 cs2 :
  connect_all pb (cs1 ++ cs2)
  = match connect_all pb cs1 with
    | (pb', Ok _) => connect_all pb' cs2
    | (pb', stop) => (pb', stop)
    end.
Proof.
  revert pb. induction cs1 as [|[a b] cs1 IH]; intros pb; [done|].
  cbn [app connect_all]. destruct (connect pb a b) as [pb' [[]| |]]; auto.
Qed.

Lemma connect_all_distinct cs :
  forall pb,
    NoDup (pair_letters cs) ->
    (forall k, k ∈ pair_letters cs -> connections pb !! k = None) ->
    exists pb',
      connect_all pb cs = (pb', Ok tt)
      /\ (forall a b, (a, b) ∈ cs ->
            connections pb' !! upcase a = Some (upcase b)
            /\ connections pb' !! upcase b = Some (upcase a))
      /\ (forall k, k ∉ pair_letters cs ->
            connections pb' !! k = connections pb !! k).
Proof.
  induction cs as [|[a b] cs IH]; intros pb Hnd Hfree.
  - exists pb. split; [done|]. split; [|done]. intros a b H. by inversion H.
  - change (pair_letters ((a, b) :: cs))
      with (upcase a :: upcase b :: pair_letters cs) in *.
    apply NoDup_cons in Hnd as [Ha Hnd]. apply NoDup_cons in Hnd as [Hb Hnd].
    apply not_elem_of_cons in Ha as [Hab Ha].
    assert (Hua : ~ paired pb a).
    { unfold paired. rewrite Hfree; [by intros [? ?] | by left]. }
    assert (Hub : ~ paired pb b).
    { unfold paired. rewrite Hfree; [by intros [? ?] | by right; left]. }
    cbn [connect_all]. rewrite (connect_unpaired pb a b Hua Hub).
    set (pb1 := mkPlugboard _).
    destruct (IH pb1 Hnd) as (pb' & Hall & Hpairs & Hrest).
    { intros k Hk. unfold pb1. cbn [connections].
      rewrite !lookup_insert_ne by (intros <-; done).
      apply Hfree. by do 2 right. }
    exists pb'. split; [done|]. split.
    + intros a' b' [[= -> ->]|Hin]%elem_of_cons; [|by apply Hpairs].
      rewrite !Hrest by done. unfold pb1. cbn [connections].
      split; [apply connect_lookup_fst | apply lookup_insert_eq].
    + intros k Hk. apply not_elem_of_cons in Hk as [Hka Hk].
      apply not_elem_of_cons in Hk as [Hkb Hk].
      rewrite (Hrest k Hk). unfold pb1. cbn [connections].
      by rewrite !lookup_insert_ne by congruence.
Qed.

(** X17: [setPlugboardConnections] with pairs whose letters, upper-cased,
    are all different returns; it leaves rotors and reflector as they are
    and a plugboard on which [process] swaps the two letters of every pair
    and upper-cases every other character, whatever was plugged before. *)
Theorem setPlugboardConnections_distinct (cs : list (ascii * ascii))
    (m : EnigmaMachine) :
  NoDup (pair_letters cs) ->
  exists pb',
    setPlugboardConnections cs m
    = (mkMachine (rotors m) (reflector m) pb', Ok tt)
    /\ (forall a b, (a, b) ∈ cs ->
          (Plugboard_process pb' a).2 = upcase b
          /\ (Plugboard_process pb' b).2 = upcase a)
    /\ (forall x, upcase x ∉ pair_letters cs ->
          (Plugboard_process pb' x).2 = upcase x).
Proof.
  intros Hnd.
  destruct (connect_all_distinct cs (clearConnections (plugboard m)) Hnd)
    as (pb' & Hall & Hpairs & Hrest); [done|].
  exists pb'. unfold setPlugboardConnections. rewrite Hall.
  split; [done|]. split.
  - intros a b Hin. destruct (Hpairs a b Hin) as [Ha Hb].
    split; by apply Plugboard_process_paired.
  - intros x Hx. apply Plugboard_process_unpaired. by rewrite (Hrest _ Hx).
Qed.

Lemma setPlugboardConnections_distinct_witness :
  exists pb',
    setPlugboardConnections [("q", "w"); ("E", "r"); ("T", "Y")]%char enigma_ABC
    = (mkMachine (rotors enigma_ABC) (reflector enigma_ABC) pb', Ok tt)
    /\ (forall a b, (a, b) ∈ [("q", "w"); ("E", "r"); ("T", "Y")]%char ->
          (Plugboard_process pb' a).2 = upcase b
          /\ (Plugboard_process pb' b).2 = upcase a)
    /\ (forall x,
          upcase x ∉ pair_letters [("q", "w"); ("E", "r"); ("T", "Y")]%char ->
          (Plugboard_process pb' x).2 = upcase x).
Proof.
  apply (setPlugboardConnections_distinct
           [("q", "w"); ("E", "r"); ("T", "Y")]%char enigma_ABC).
  apply (bool_decide_unpack _). vm_compute. exact I.
Defined.

(** X18: [setPlugboardConnections] is not atomic.  When a pair names a
    letter that an earlier pair of the list has used, the call throws at
    that pair: the plugs of before the call are gone, the earlier pairs of
    the list are plugged, and the rest of the list is not looked at. *)
Theorem setPlugboardConnections_throws (pre post : list (ascii * ascii))
    (a b : ascii) (m : EnigmaMachine) :
  NoDup (pair_letters pre) ->
  upcase a ∈ pair_letters pre \/ upcase b ∈ pair_letters pre ->
  exists pb',
    setPlugboardConnections (pre ++ (a, b) :: post) m
    = (mkMachine (rotors m) (reflector m) pb',
       Throw "One or both letters are already connected")
    /\ connect_all newPlugboard pre = (pb', Ok tt)
    /\ (forall a' b', (a', b') ∈ pre ->
          (Plugboard_process pb' a').2 = upcase b'
          /\ (Plugboard_process pb' b').2 = upcase a')
    /\ (forall x, upcase x ∉ pair_letters pre ->
          (Plugboard_process pb' x).2 = upcase x).
Proof.
  intros Hnd Hused.
  destruct (connect_all_distinct pre newPlugboard Hnd)
    as (pb' & Hall & Hpairs & Hrest); [done|].
  assert (Hkeys : forall k, k ∈ pair_letters pre -> is_Some (connections pb' !! k)).
  { intros k (p & Hk & Hp)%list_elem_of_bind. destruct p as [a' b'].
    destruct (Hpairs a' b' Hp) as [Ha' Hb'].
    cbn in Hk. apply elem_of_cons in Hk as [->|Hk]; [by eexists|].
    apply list_elem_of_singleton in Hk as ->. by eexists. }
  exists pb'. unfold setPlugboardConnections, clearConnections.
  fold newPlugboard. rewrite connect_all_app, Hall. cbn [connect_all].
  rewrite (connect_paired pb' a b)
    by (destruct Hused; [left | right]; by apply Hkeys).
  split; [done|]. split; [done|]. split.
  - intros a' b' Hin. destruct (Hpairs a' b' Hin) as [Ha' Hb'].
    split; by apply Plugboard_process_paired.
  - intros x Hx. apply Plugboard_process_unpaired. by rewrite (Hrest _ Hx).
Qed.

Lemma setPlugboardConnections_throws_witness :
  exists pb',
    setPlugboardConnections
      ([("Q", "W"); ("E", "R")] ++ ("T", "Q") :: [("U", "I")])%char enigma_ABC
    = (mkMachine (rotors enigma_ABC) (reflector enigma_ABC) pb',
       Throw "One or both letters are already connected")
    /\ connect_all newPlugboard [("Q", "W"); ("E", "R")]%char = (pb', Ok tt)
    /\ (forall a' b', (a', b') ∈ [("Q", "W"); ("E", "R")]%char ->
          (Plugboard_process pb' a').2 = upcase b'
          /\ (Plugboard_process pb' b').2 = upcase a')
    /\ (forall x, upcase x ∉ pair_letters [("Q", "W"); ("E", "R")]%char ->
          (Plugboard_process pb' x).2 = upcase x).
Proof.
  apply (setPlugboardConnections_throws
           [("Q", "W"); ("E", "R")]%char [("U", "I")]%char "T" "Q" enigma_ABC).
  - apply (bool_decide_unpack _). vm_compute. exact I.
  - right. apply (bool_decide_unpack _). vm_compute. exact I.
Defined.

(** ** Listing the connections *)

(** The entries whose key has a code from [lo] on, [n] codes in all. *)
Definition entries_from (m : gmap ascii ascii) (lo : Z) (n : nat)
  : list (ascii * ascii) :=
  omap (fun k => (fun v => (k, v)) <$> m !! k) (chr <$> seqZ lo (Z.of_nat n)).

Lemma map_entries_from m : map_entries m = entries_from m (-128) 256.
Proof.
  unfold map_entries, entries_from, chars_ascending.
  by replace (Z.of_nat 256) with 256 by lia.
Qed.

Lemma entries_from_S m lo n :
  entries_from m lo (S n)
  = match m !! chr lo with
    | Some v => (chr lo, v) :: entries_from m (lo + 1) n
    | None => entries_from m (lo + 1) n
    end.
Proof.
  unfold entries_from. rewrite seqZ_cons by lia.
  replace (Z.pred (Z.of_nat (S n))) with (Z.of_nat n) by lia.
  replace (Z.succ lo) with (lo + 1) by lia.
  cbn [fmap list_fmap omap list_omap]. by destruct (m !! chr lo).
Qed.

Lemma elem_of_entries_from m lo n k v :
  (k, v) ∈ entries_from m lo n
  <-> m !! k = Some v /\ exists i, k = chr i /\ lo <= i < lo + Z.of_nat n.
Proof.
  unfold entries_from. rewrite list_elem_of_omap. split.
  - intros (k' & Hk' & Hkv). apply list_elem_of_fmap in Hk' as (i & -> & Hi).
    apply elem_of_seqZ in Hi. destruct (m !! chr i) as [v'|] eqn:E; [|done].
    injection Hkv as <- <-. eauto.
  - intros (Hkv & i & -> & Hi). exists (chr i). split.
    + apply list_elem_of_fmap. exists i. split; [done|]. by apply elem_of_seqZ.
    + by rewrite Hkv.
Qed.

(** [map_entries] holds exactly the entries of the map. *)
Lemma elem_of_map_entries m k v : (k, v) ∈ map_entries m <-> m !! k = Some v.
Proof.
  rewrite map_entries_from, elem_of_entries_from. split; [by intros [? _]|].
  intros H. split; [done|]. exists (code k).
  pose proof (code_range k). by rewrite chr_code.
Qed.

(** [map_entries] goes by ascending key. *)
Lemma entries_from_sorted m n :
  forall lo, -128 <= lo -> lo + Z.of_nat n <= 128 ->
    StronglySorted (fun p q => code p.1 < code q.1) (entries_from m lo n).
Proof.
  induction n as [|n IH]; intros lo Hlo Hhi; [constructor|].
  rewrite entries_from_S. destruct (m !! chr lo) as [v|]; [|apply IH; lia].
  constructor; [apply IH; lia|]. apply Forall_forall. intros [k w] Hin.
  apply elem_of_entries_from in Hin as (_ & i & -> & Hi). cbn.
  rewrite !code_chr by lia. lia.
Qed.

Section getConnections.
Variable pb : Plugboard.
Hypothesis Hsym : plug_sym pb.
Hypothesis Hletters : plug_letters pb.

(** [x] belongs to a pair whose lower letter has a code below [lo]. *)
Definition listed (lo : Z) (x : ascii) : bool :=
  match connections pb !! x with
  | Some v => Z.min (code x) (code v) <? lo
  | None => false
  end.

Lemma listed_succ lo x :
  (forall v, connections pb !! x = Some v -> Z.min (code x) (code v) <> lo) ->
  listed (lo + 1) x = listed lo x.
Proof.
  intros H. unfold listed. destruct (connections pb !! x) as [v|]; [|done].
  specialize (H v eq_refl).
  destruct (Z.ltb_spec (Z.min (code x) (code v)) (lo + 1)),
           (Z.ltb_spec (Z.min (code x) (code v)) lo); (done || lia).
Qed.

Definition lower_first (p : ascii * ascii) : Prop := code p.1 <= code p.2.

Definition listing (p : ascii * ascii) : list ascii := [p.1; p.2; " "%char].

Lemma vec_get_lookup {A} (v : list A) (i : Z) (x : A) :
  0 <= i -> v !! Z.to_nat i = Some x -> vec_get v i = Ok x.
Proof.
  intros Hi H. unfold vec_get. destruct (Z.ltb_spec i 0); [lia|]. by rewrite H.
Qed.

Lemma vec_set_Ok {A} (v : list A) (i : Z) (x : A) :
  0 <= i < Z.of_nat (length v) -> vec_set v i x = Ok (<[Z.to_nat i := x]> v).
Proof.
  intros H. unfold vec_set.
  destruct (Z.leb_spec 0 i), (Z.ltb_spec i (Z.of_nat (length v)));
    simpl; (done || lia).
Qed.

Lemma getConnections_loop_spec (n : nat) :
  forall lo result added,
    -128 <= lo -> lo + Z.of_nat n = 128 ->
    length added = Z.to_nat ALPHABET_SIZE ->
    (forall x, is_upper x = true ->
       added !! Z.to_nat (charToIndex x) = Some (listed lo x)) ->
    getConnections_loop (entries_from (connections pb) lo n) result added
    = Ok (result
          ++ (filter lower_first (entries_from (connections pb) lo n)
              ≫= listing)).
Proof.
  induction n as [|n IH]; intros lo result added Hlo Hhi Hlen Hinv.
  - cbn. by rewrite app_nil_r.
  - assert (Hcode : code (chr lo) = lo) by (apply code_chr; lia).
    rewrite entries_from_S.
    destruct (connections pb !! chr lo) as [b|] eqn:Eb.
    + destruct (Hletters _ _ Eb) as [Hau Hbu].
      destruct (Hsym _ _ Eb) as [_ Hba].
      pose proof (proj1 (charToIndex_alpha _) (is_upper_alpha _ Hau)) as Hai.
      pose proof (proj1 (charToIndex_alpha _) (is_upper_alpha _ Hbu)) as Hbi.
      assert (Hstep : forall x, is_upper x = true -> x <> chr lo -> x <> b ->
                listed (lo + 1) x = listed lo x).
      { intros x Hx Hxa Hxb. apply listed_succ. intros v Hv Hmin.
        destruct (Z.min_spec (code x) (code v)) as [[_ E]|[_ E]];
          rewrite E in Hmin.
        - apply Hxa, code_inj. by rewrite Hcode.
        - assert (v = chr lo) as -> by (apply code_inj; by rewrite Hcode).
          destruct (Hsym _ _ Hv) as [_ Hback]. congruence. }
      cbn [getConnections_loop].
      rewrite (vec_get_lookup added _ (listed lo (chr lo)))
        by (lia || by apply Hinv).
      rewrite bind_Ok. unfold listed at 1. rewrite Eb, Hcode.
      destruct (Z.ltb_spec (Z.min lo (code b)) lo) as [Hlt|Hge]; cbn [negb].
      * rewrite filter_cons_False by (unfold lower_first; cbn; lia).
        apply IH; [lia | lia | done |]. intros x Hx.
        rewrite (Hinv x Hx). f_equal. symmetry. apply listed_succ. intros v Hv Hmin.
        destruct (Z.min_spec (code x) (code v)) as [[_ E]|[_ E]];
          rewrite E in Hmin.
        -- assert (x = chr lo) as -> by (apply code_inj; by rewrite Hcode).
           assert (v = b) as -> by congruence. lia.
        -- assert (v = chr lo) as -> by (apply code_inj; by rewrite Hcode).
           destruct (Hsym _ _ Hv) as [_ Hback].
           assert (x = b) as -> by congruence. lia.
      * rewrite filter_cons_True by (unfold lower_first; cbn; lia).
        unfold ALPHABET_SIZE in *.
        rewrite vec_set_Ok by lia. rewrite bind_Ok.
        rewrite vec_set_Ok by (rewrite length_insert; lia). rewrite bind_Ok.
        rewrite IH; [| lia | lia | by rewrite !length_insert |].
        { cbn. by rewrite <- !app_assoc. }
        intros x Hx.
        pose proof (proj1 (charToIndex_alpha _) (is_upper_alpha _ Hx)) as Hxi.
        unfold ALPHABET_SIZE in *.
        destruct (decide (x = b)) as [->|Hxb].
        { rewrite list_lookup_insert_eq by (rewrite length_insert; lia).
          unfold listed. rewrite Hba, Hcode.
          by destruct (Z.ltb_spec (Z.min (code b) lo) (lo + 1)); [|lia]. }
        destruct (decide (x = chr lo)) as [->|Hxa].
        { rewrite list_lookup_insert_ne
            by (intros E; apply Hxb; symmetry;
                apply charToIndex_inj_upper; [done..|lia]).
          rewrite list_lookup_insert_eq by lia.
          unfold listed. rewrite Eb, Hcode.
          by destruct (Z.ltb_spec (Z.min lo (code b)) (lo + 1)); [|lia]. }
        rewrite list_lookup_insert_ne
          by (intros E; apply Hxb; symmetry;
              apply charToIndex_inj_upper; [done..|lia]).
        rewrite list_lookup_insert_ne
          by (intros E; apply Hxa; symmetry;
              apply charToIndex_inj_upper; [done..|lia]).
        rewrite (Hinv x Hx). f_equal. symmetry. by apply Hstep.
    + apply IH; [lia | lia | done |]. intros x Hx.
      rewrite (Hinv x Hx). f_equal. symmetry. apply listed_succ. intros v Hv Hmin.
      destruct (Z.min_spec (code x) (code v)) as [[_ E]|[_ E]];
        rewrite E in Hmin.
      * assert (x = chr lo) as -> by (apply code_inj; by rewrite Hcode).
        congruence.
      * assert (v = chr lo) as -> by (apply code_inj; by rewrite Hcode).
        destruct (Hsym _ _ Hv) as [_ Hback]. congruence.
Qed.

Lemma getConnections_listing :
  getConnections pb
  = Ok (filter lower_first (map_entries (connections pb)) ≫= listing).
Proof.
  unfold getConnections. rewrite map_entries_from.
  rewrite (getConnections_loop_spec 256 (-128)); [done | lia | lia | |].
  - by rewrite length_replicate.
  - intros x Hx.
    pose proof (proj1 (charToIndex_alpha _) (is_upper_alpha _ Hx)) as Hxi.
    unfold ALPHABET_SIZE in *. rewrite lookup_replicate_2 by lia.
    unfold listed. destruct (connections pb !! x) as [v|]; [|done].
    pose proof (code_range x). pose proof (code_range v).
    by destruct (Z.ltb_spec (Z.min (code x) (code v)) (-128)); [lia|].
Qed.
End getConnections.

(** X19: on a plugboard of letter pairs [getConnections] returns, and
    lists every pair exactly once, as its lower letter, its higher letter
    and a blank, the pairs in ascending order of their lower letter (a
    letter plugged to itself is listed as that letter twice): it keeps,
    of the entries of the map in key order, those whose key is not above
    its partner. *)
Theorem getConnections_spec (pb : Plugboard) :
  plug_sym pb -> plug_letters pb ->
  getConnections pb
  = Ok (filter lower_first (map_entries (connections pb)) ≫= listing)
  /\ (forall k v, (k, v) ∈ map_entries (connections pb)
                  <-> connections pb !! k = Some v)
  /\ StronglySorted (fun p q => code p.1 < code q.1)
                    (map_entries (connections pb)).
Proof.
  intros Hs Hl. split; [by apply getConnections_listing|].
  split; [apply elem_of_map_entries|].
  rewrite map_entries_from. apply entries_from_sorted; lia.
Qed.

Definition plugs_MM_QZ : Plugboard :=
  Eval vm_compute in (connect (connect newPlugboard "z" "q").1 "m" "m").1.

Lemma getConnections_spec_witness :
  getConnections plugs_MM_QZ
  = Ok (filter lower_first (map_entries (connections plugs_MM_QZ)) ≫= listing)
  /\ (forall k v, (k, v) ∈ map_entries (connections plugs_MM_QZ)
                  <-> connections plugs_MM_QZ !! k = Some v)
  /\ StronglySorted (fun p q => code p.1 < code q.1)
                    (map_entries (connections plugs_MM_QZ)).
Proof.
  apply (getConnections_spec plugs_MM_QZ).
  - apply (bool_decide_unpack _). vm_compute. exact I.
  - apply (bool_decide_unpack _). vm_compute. exact I.
Defined.

(** The plugs of [main], and a plugboard with a self-plugged letter. *)
Example getConnections_examples :
  getConnections (plugboard enigma_ABC) = Ok (str "AB CD EF ")
  /\ getConnections plugs_MM_QZ = Ok (str "MM QZ ").
Proof. vm_compute. done. Qed.

(** X20: on a well-formed machine [getCurrentState] returns the text
    "Rotor Positions: ", three upper-case letters whose indices are the
    positions of the left, middle and right rotor, a line break,
    "Plugboard: " and the listing of [getConnections]. *)
Theorem getCurrentState_spec (m : EnigmaMachine) :
  machine_ok m ->
  exists l mid r conns,
    getCurrentState m
    = Ok (str "Rotor Positions: " ++ [l; mid; r]
          ++ "010"%char :: str "Plugboard: " ++ conns)
    /\ getConnections (plugboard m) = Ok conns
    /\ charToIndex <$> [l; mid; r] = getPositions m
    /\ Forall (fun c => is_upper c = true) [l; mid; r].
Proof.
  intros Hm.
  destruct (machine_ok_three m Hm) as (r0 & r1 & r2 & E & H0 & H1 & H2).
  destruct Hm as (_ & _ & _ & Hs & Hl).
  destruct H0 as (_ & _ & [Hp0 _]), H1 as (_ & _ & [Hp1 _]),
           H2 as (_ & _ & [Hp2 _]).
  pose proof (getConnections_listing (plugboard m) Hs Hl) as Hconns.
  revert Hconns.
  generalize (filter lower_first (map_entries (connections (plugboard m)))
              ≫= listing).
  intros conns Hconns.
  exists (indexToChar (position (component r0))),
         (indexToChar (position (component r1))),
         (indexToChar (position (component r2))), conns.
  split; [|split; [done|split]].
  - unfold getCurrentState. rewrite E. cbn [rotor_at lookup list_lookup].
    rewrite !bind_Ok, Hconns, bind_Ok. reflexivity.
  - unfold getPositions. rewrite E. cbn.
    by rewrite !charToIndex_indexToChar.
  - repeat apply Forall_cons_2; try apply Forall_nil_2;
      by apply is_upper_indexToChar.
Qed.

Lemma getCurrentState_spec_witness :
  exists l mid r conns,
    getCurrentState enigma_ABC
    = Ok (str "Rotor Positions: " ++ [l; mid; r]
          ++ "010"%char :: str "Plugboard: " ++ conns)
    /\ getConnections (plugboard enigma_ABC) = Ok conns
    /\ charToIndex <$> [l; mid; r] = getPositions enigma_ABC
    /\ Forall (fun c => is_upper c = true) [l; mid; r].
Proof.
  apply (getCurrentState_spec enigma_ABC).
  apply (bool_decide_unpack _). vm_compute. exact I.
Defined.

(** * The factory *)

Lemma createRotor_ok w notch nm pos ring :
  wiring_perm (str w) -> 0 <= pos -> 0 <= ring ->
  exists r, createRotor w notch nm pos ring = Ok r /\ rotor_ok r
    /\ wiring (component r) = str w
    /\ position (component r) = pos mod ALPHABET_SIZE
    /\ ringSetting (component r) = ring mod ALPHABET_SIZE
    /\ notchPosition r = notch.
Proof.
  intros Hw Hpos Hring.
  destruct (newRotor_ok (str w) notch nm Hw) as (r & Hr & Hok & Ew & En & _).
  unfold createRotor. rewrite Hr, bind_Ok. eexists. split; [done|].
  split.
  - apply on_component_ok; [done | by apply setRingSetting_ok |].
    by apply on_component_ok; [| apply setPosition_ok |].
  - cbn. by rewrite !Z.rem_mod_nonneg by (unfold ALPHABET_SIZE; lia).
Qed.

(** The reflector sends no upper-case letter to itself. *)
Definition reflector_no_fixed_point (rf : Reflector) : Prop :=
  Forall (fun c => Reflector_process rf c true <> Ok c) ALPHABET.

Global Instance reflector_no_fixed_point_dec rf :
  Decision (reflector_no_fixed_point rf).
Proof. unfold reflector_no_fixed_point. apply _. Defined.

(** X21: the factory makes valid parts.  For every non-negative position
    and ring setting, [createRotorI], [createRotorII] and [createRotorIII]
    return a well-formed rotor at that position and ring setting mod 26
    with notch 16, 4 and 21; [createReflectorB] and [createReflectorC]
    return reflectors wired with a permutation that is an involution
    without fixed point. *)
Theorem factory_valid (pos ring : Z) :
  0 <= pos -> 0 <= ring ->
  (forall create notch,
     (create, notch) ∈ [(createRotorI, 16); (createRotorII, 4);
                        (createRotorIII, 21)] ->
     exists r, create pos ring = Ok r /\ rotor_ok r
       /\ position (component r) = pos mod ALPHABET_SIZE
       /\ ringSetting (component r) = ring mod ALPHABET_SIZE
       /\ notchPosition r = notch)
  /\ (forall create, create ∈ [createReflectorB; createReflectorC] ->
        exists rf, create = Ok rf /\ reflector_perm rf
          /\ reflector_involution rf /\ reflector_no_fixed_point rf).
Proof.
  intros Hpos Hring. split.
  - intros create notch Hin.
    assert (Hcase : exists w nm, create = createRotor w notch nm
                                 /\ wiring_perm (str w)).
    { repeat (apply elem_of_cons in Hin as [[= -> ->]|Hin]);
        [..|by apply elem_of_nil in Hin];
        do 2 eexists; (split; [reflexivity|]);
        apply (bool_decide_unpack _); vm_compute; exact I. }
    destruct Hcase as (w & nm & -> & Hw).
    destruct (createRotor_ok w notch nm pos ring Hw Hpos Hring)
      as (r & ? & ? & _ & ? & ? & ?).
    by exists r.
  - intros create Hin.
    repeat (apply elem_of_cons in Hin as [->|Hin]);
      [..|by apply elem_of_nil in Hin];
      (eexists; split; [vm_compute; reflexivity|]);
      (split; [|split]); apply (bool_decide_unpack _); vm_compute; exact I.
Qed.

Lemma factory_valid_witness :
  (forall create notch,
     (create, notch) ∈ [(createRotorI, 16); (createRotorII, 4);
                        (createRotorIII, 21)] ->
     exists r, create 30 5 = Ok r /\ rotor_ok r
       /\ position (component r) = 30 mod ALPHABET_SIZE
       /\ ringSetting (component r) = 5 mod ALPHABET_SIZE
       /\ notchPosition r = notch)
  /\ (forall create, create ∈ [createReflectorB; createReflectorC] ->
        exists rf, create = Ok rf /\ reflector_perm rf
          /\ reflector_involution rf /\ reflector_no_fixed_point rf).
Proof. apply (factory_valid 30 5); lia. Defined.
